(* A shallow embedding of the gRPC-web Node transport of connect-es
   (createGrpcWebTransport: its unary and stream call functions) together
   with the error type ConnectError, and proofs about their behaviour. *)

From Stdlib Require Import String Ascii ZArith List Bool Lia.
Import ListNotations.
Open Scope string_scope.

(* ------------------------------------------------------------------ *)
(** * Status codes and ConnectError *)

Module Status.

Inductive StatusCode :=
| Ok | Canceled | Unknown | InvalidArgument | DeadlineExceeded | NotFound
| AlreadyExists | PermissionDenied | ResourceExhausted | FailedPrecondition
| Aborted | OutOfRange | Unimplemented | Internal | Unavailable | DataLoss
| Unauthenticated.

Definition StatusCode_eq_dec (a b : StatusCode) : {a = b} + {a <> b}.
Proof. decide equality. Defined.

(** The enum's numeric values, 0 .. 16. *)
Definition to_Z (c : StatusCode) : Z :=
  match c with
  | Ok => 0 | Canceled => 1 | Unknown => 2 | InvalidArgument => 3
  | DeadlineExceeded => 4 | NotFound => 5 | AlreadyExists => 6
  | PermissionDenied => 7 | ResourceExhausted => 8 | FailedPrecondition => 9
  | Aborted => 10 | OutOfRange => 11 | Unimplemented => 12 | Internal => 13
  | Unavailable => 14 | DataLoss => 15 | Unauthenticated => 16
  end.

Definition all_codes : list StatusCode :=
  [Ok; Canceled; Unknown; InvalidArgument; DeadlineExceeded; NotFound;
   AlreadyExists; PermissionDenied; ResourceExhausted; FailedPrecondition;
   Aborted; OutOfRange; Unimplemented; Internal; Unavailable; DataLoss;
   Unauthenticated].

(** [StatusCode[code]]: the enum member's name. *)
Definition name (c : StatusCode) : string :=
  match c with
  | Ok => "Ok" | Canceled => "Canceled" | Unknown => "Unknown"
  | InvalidArgument => "InvalidArgument" | DeadlineExceeded => "DeadlineExceeded"
  | NotFound => "NotFound" | AlreadyExists => "AlreadyExists"
  | PermissionDenied => "PermissionDenied"
  | ResourceExhausted => "ResourceExhausted"
  | FailedPrecondition => "FailedPrecondition" | Aborted => "Aborted"
  | OutOfRange => "OutOfRange" | Unimplemented => "Unimplemented"
  | Internal => "Internal" | Unavailable => "Unavailable"
  | DataLoss => "DataLoss" | Unauthenticated => "Unauthenticated"
  end.

(** [type ErrorCode = Exclude<StatusCode, StatusCode.Ok>] *)
Definition ErrorCode := { c : StatusCode | c <> Ok }.

Lemma Unknown_not_Ok : Unknown <> Ok.
Proof. discriminate. Qed.

(** A status code used where an [ErrorCode] is expected; [Ok] never reaches
    this point in the callers below, it is sent to [Unknown]. *)
Definition to_error_code (c : StatusCode) : ErrorCode :=
  match StatusCode_eq_dec c Ok with
  | left _ => exist _ Unknown Unknown_not_Ok
  | right H => exist _ c H
  end.

Definition of_Z (n : Z) : StatusCode :=
  match find (fun c => Z.eqb (to_Z c) n) all_codes with
  | Some c => c
  | None => Unknown
  end.

(** [Any] detail payloads (google.protobuf.Any). *)
Record AnyMsg := mkAny { type_url : string; any_value : list Byte.byte }.

(** The fields of a constructed [ConnectError]. *)
Record ConnectError := mkConnectError {
  ce_message : string;   (* Error.message *)
  ce_code : StatusCode;
  ce_details : list AnyMsg
}.

(** [new ConnectError(message, code = StatusCode.Unknown, details?)] *)
Definition new_ConnectError (message : string) (code : option ErrorCode)
    (details : option (list AnyMsg)) : ConnectError :=
  let c := match code with Some c => proj1_sig c | None => Unknown end in
  {| ce_message := "[" ++ name c ++ "] " ++ message;
     ce_code := c;
     ce_details := match details with Some d => d | None => [] end |}.

Lemma InvalidArgument_not_Ok : InvalidArgument <> Ok.
Proof. discriminate. Qed.

Definition InvalidArgumentE : ErrorCode := exist _ InvalidArgument InvalidArgument_not_Ok.

(** [new ConnectError(msg, Code.InvalidArgument)] *)
Definition protocol_error (msg : string) : ConnectError :=
  new_ConnectError msg (Some InvalidArgumentE) None.

Definition err_extra_trailer := protocol_error "protocol error: received extra trailer".
Definition err_extra_output :=
  protocol_error "protocol error: received extra output message for unary method".
Definition err_missing_trailer := protocol_error "protocol error: missing trailer".
Definition err_missing_output :=
  protocol_error "protocol error: missing output message for unary method".
Definition err_extra_message :=
  protocol_error "protocol error: received extra message after trailer".

End Status.
Import Status.

(* ------------------------------------------------------------------ *)
(** * Headers, compression descriptors and the gRPC-web validators *)

Module Protocol.

(** A [Headers] object: (lower-case name, value) pairs in insertion order. *)
Definition Headers := list (string * string).

(** [Headers.get]: the values of every entry with that name joined by ", ",
    or [null]. *)
Definition header_get (h : Headers) (k : string) : option string :=
  match map snd (filter (fun kv => String.eqb (fst kv) k) h) with
  | [] => None
  | v :: vs => Some (fold_left (fun acc x => acc ++ ", " ++ x) vs v)
  end.

Definition header_has (h : Headers) (k : string) : bool :=
  match header_get h k with Some _ => true | None => false end.

(** A compression descriptor; only its name matters to the call runner. *)
Record Compression := mkCompression { compression_name : string }.

(** A value or a thrown [ConnectError]. *)
Inductive Result (A : Type) :=
| ROk (a : A)
| RErr (e : ConnectError).
Arguments ROk {A} a.
Arguments RErr {A} e.

Definition digit_value (c : ascii) : option Z :=
  let n := nat_of_ascii c in
  if (48 <=? n)%nat && (n <=? 57)%nat then Some (Z.of_nat (n - 48)) else None.

Fixpoint parse_digits (s : string) (acc : Z) : option Z :=
  match s with
  | EmptyString => Some acc
  | String c rest =>
      match digit_value c with
      | Some d => parse_digits rest (acc * 10 + d)
      | None => None
      end
  end.

(** A non-negative decimal integer. *)
Definition parse_decimal (s : string) : option Z :=
  match s with
  | EmptyString => None
  | _ => parse_digits s 0
  end.

Definition hex_value (c : ascii) : option nat :=
  let n := nat_of_ascii c in
  if (48 <=? n)%nat && (n <=? 57)%nat then Some (n - 48)%nat
  else if (65 <=? n)%nat && (n <=? 70)%nat then Some (n - 55)%nat
  else if (97 <=? n)%nat && (n <=? 102)%nat then Some (n - 87)%nat
  else None.

(** Percent-decoding of [grpc-message]: "%XY" becomes the byte 0xXY. *)
Fixpoint percent_decode (s : string) : string :=
  match s with
  | String "%" tl =>
      match tl with
      | String a (String b rest) =>
          match hex_value a, hex_value b with
          | Some x, Some y => String (ascii_of_nat (x * 16 + y)) (percent_decode rest)
          | _, _ => String "%" (percent_decode tl)
          end
      | _ => String "%" (percent_decode tl)
      end
  | String c rest => String c (percent_decode rest)
  | EmptyString => EmptyString
  end.

Fixpoint digits_of (fuel : nat) (n : Z) (acc : string) : string :=
  match fuel with
  | O => acc
  | S f =>
      let acc' := String (ascii_of_nat (48 + Z.to_nat (n mod 10))) acc in
      if Z.ltb n 10 then acc' else digits_of f (n / 10) acc'
  end.

(** Decimal rendering of a non-negative integer. *)
Definition string_of_Z (n : Z) : string := digits_of 20 n "".

Section Validators.

(** Decoding of the base64 [grpc-status-details-bin] value into detail
    payloads. *)
Variable decode_details : string -> list AnyMsg.

(** Modelled from the spec: [validateTrailer] of
    @bufbuild/connect-core/protocol-grpc-web (section 4.E, "Validate trailer
    block"). [None] means the trailer is valid with status OK; [Some e] is the
    error it throws. *)
Definition validate_trailer (t : Headers) : option ConnectError :=
  match header_get t "grpc-status" with
  | None => Some (protocol_error "protocol error: missing grpc-status")
  | Some s =>
      match parse_decimal s with
      | None => Some (protocol_error ("protocol error: invalid grpc-status: " ++ s))
      | Some n =>
          if Z.eqb n 0 then None
          else Some (new_ConnectError
                       (match header_get t "grpc-message" with
                        | Some m => percent_decode m
                        | None => "" end)
                       (Some (to_error_code (of_Z n)))
                       (match header_get t "grpc-status-details-bin" with
                        | Some b => Some (decode_details b)
                        | None => None end))
      end
  end.

(** HTTP status to gRPC code, for a status other than 200. *)
Definition code_from_http (status : Z) : StatusCode :=
  if Z.eqb status 401 then Unauthenticated
  else if Z.eqb status 403 then PermissionDenied
  else if Z.eqb status 404 then Unimplemented
  else if Z.eqb status 429 || Z.eqb status 502 || Z.eqb status 503
          || Z.eqb status 504 then Unavailable
  else Unknown.

(** [application/grpc-web], [application/grpc-web+proto] (binary) and
    [application/grpc-web+json] (textual). *)
Definition parse_content_type (ct : string) : option bool :=
  if String.eqb ct "application/grpc-web" then Some true
  else if String.eqb ct "application/grpc-web+proto" then Some true
  else if String.eqb ct "application/grpc-web+json" then Some false
  else None.

Variable useBinaryFormat : bool.
Variable acceptCompression : list Compression.

(** Modelled from the spec: [validateResponseWithCompression] of
    @bufbuild/connect-core/protocol-grpc-web (section 4.E, "Validate
    response", steps 1 to 4). It returns the matched compression and
    [foundStatus]; a [grpc-status] header with a non-zero value throws the
    status's error (the source's comment at the trailers-only branch: "A
    grpc-status: 0 response header was present"). *)
Definition validate_response (status : Z) (h : Headers)
    : Result (option Compression * bool) :=
  if negb (Z.eqb status 200) then
    RErr (new_ConnectError ("HTTP " ++ string_of_Z status)
            (Some (to_error_code (code_from_http status))) None)
  else
    match option_map parse_content_type (header_get h "content-type") with
    | Some (Some bin) =>
        if Bool.eqb bin useBinaryFormat then
          let comp :=
            match header_get h "grpc-encoding" with
            | None => ROk None
            | Some "identity" => ROk None
            | Some enc =>
                match find (fun c => String.eqb (compression_name c) enc)
                           acceptCompression with
                | Some c => ROk (Some c)
                | None => RErr (protocol_error
                                  ("protocol error: unsupported grpc-encoding " ++ enc))
                end
            end in
          match comp with
          | RErr e => RErr e
          | ROk c =>
              if header_has h "grpc-status" then
                match validate_trailer h with
                | Some e => RErr e
                | None => ROk (c, true)
                end
              else ROk (c, false)
          end
        else RErr (protocol_error "protocol error: unexpected content type")
    | _ => RErr (new_ConnectError "unsupported content type"
                   (Some (to_error_code Unimplemented)) None)
    end.

End Validators.

End Protocol.
Import Protocol.

(* ------------------------------------------------------------------ *)
(** * The HTTP response and the parsed envelope stream *)

Module Http.

(** One item of the response pipeline [split -> decompress -> parse]
    ([transformParseEnvelope] with [trailerFlag]): a message envelope
    ([end: false]), a trailer envelope ([end: true]) or an error thrown by a
    stage of the pipeline when the item is pulled. *)
Inductive Chunk (O : Type) :=
| CMsg (m : O)
| CEnd (t : Headers)
| CErr (e : ConnectError).
Arguments CMsg {O} m.
Arguments CEnd {O} t.
Arguments CErr {O} e.

(** The universal HTTP client's response. *)
Record UResponse (Body : Type) := mkUResponse {
  ur_status : Z;
  ur_header : Headers;
  ur_body : Body
}.
Arguments mkUResponse {Body} ur_status ur_header ur_body.
Arguments ur_status {Body} u.
Arguments ur_header {Body} u.
Arguments ur_body {Body} u.

Definition msgs_of {O} (l : list (Chunk O)) : list O :=
  flat_map (fun c => match c with CMsg m => [m] | _ => [] end) l.

Definition trailers_of {O} (l : list (Chunk O)) : list Headers :=
  flat_map (fun c => match c with CEnd t => [t] | _ => [] end) l.

Definition no_err {O} (l : list (Chunk O)) : Prop :=
  Forall (fun c => match c with CErr _ => False | _ => True end) l.

Definition opt_list {A} (o : option A) : list A :=
  match o with Some a => [a] | None => [] end.

End Http.
Import Http.

(* ------------------------------------------------------------------ *)
(** * The unary call *)

Module Unary.

Section UnaryCall.

Variable decode_details : string -> list AnyMsg.
Variable useBinaryFormat : bool.
Variable acceptCompression : list Compression.
(** Output message type and raw body type. *)
Variable O Body : Type.
(** [pipeTo(body, transformSplitEnvelope(readMaxBytes),
    transformDecompressEnvelope(compression ?? null, readMaxBytes),
    transformParseEnvelope(...), ...)]: the parsed items of the body for the
    negotiated compression. *)
Variable inbound : option Compression -> Body -> list (Chunk O).

Record UnaryResponse := mkUnaryResponse {
  u_header : Headers;
  u_message : O;
  u_trailer : Headers
}.

(** The [async (iterable) => { ... }] sink of [pipeTo]: the [for await]
    loop over the parsed envelopes, carrying [message] and [trailer]. *)
Fixpoint unary_collect (it : list (Chunk O)) (message : option O)
    (trailer : option Headers) : Result (option Headers * option O) :=
  match it with
  | [] => ROk (trailer, message)
  | CErr e :: _ => RErr e
  | CEnd t :: rest =>
      match trailer with
      | Some _ => RErr err_extra_trailer
      | None => unary_collect rest message (Some t)
      end
  | CMsg m :: rest =>
      match message with
      | Some _ => RErr err_extra_output
      | None => unary_collect rest (Some m) trailer
      end
  end.

(** The call function passed to [runUnary], from the moment the client's
    response has arrived. *)
Definition unary_call (uRes : UResponse Body) : Result UnaryResponse :=
  match validate_response decode_details useBinaryFormat acceptCompression
          (ur_status uRes) (ur_header uRes) with
  | RErr e => RErr e
  | ROk (compression, _) =>
      match unary_collect (inbound compression (ur_body uRes)) None None with
      | RErr e => RErr e
      | ROk (trailer, message) =>
          match trailer with
          | None => RErr err_missing_trailer
          | Some t =>
              match validate_trailer decode_details t with
              | Some e => RErr e
              | None =>
                  match message with
                  | None => RErr err_missing_output
                  | Some m => ROk {| u_header := ur_header uRes;
                                     u_message := m; u_trailer := t |}
                  end
              end
          end
      end
  end.

End UnaryCall.

End Unary.

(* ------------------------------------------------------------------ *)
(** * The streaming call *)

Module Stream.

(** Modelled from the spec: the [defer()] promise of ./private/defer.js, a
    one-shot future (section 9, "Deferred promises"): the first [resolve] or
    [reject] settles it, later ones have no effect. *)
Inductive Deferred (A : Type) :=
| DPending
| DResolved (a : A)
| DRejected (e : ConnectError).
Arguments DPending {A}.
Arguments DResolved {A} a.
Arguments DRejected {A} e.

Definition d_resolve {A} (d : Deferred A) (a : A) : Deferred A :=
  match d with DPending => DResolved a | _ => d end.

Definition d_reject {A} (d : Deferred A) (e : ConnectError) : Deferred A :=
  match d with DPending => DRejected e | _ => d end.

Section StreamCall.

Variable decode_details : string -> list AnyMsg.
Variable useBinaryFormat : bool.
Variable acceptCompression : list Compression.
(** Partial input messages, output messages and the raw body. *)
Variable PI O Body : Type.
(** [pipe(uRes.body, transformSplitEnvelope(..), transformDecompressEnvelope(
    compression ?? null, ..), transformParseEnvelope(..))]. *)
Variable inbound : option Compression -> Body -> list (Chunk O).

(** The state of the [async function* (iterable)] generator: not started
    (with the [foundStatus] it closes over and the items still to pull),
    suspended at [yield] inside the [for await] loop, or completed. *)
Inductive Gen :=
| GStart (foundStatus : bool) (it : list (Chunk O))
| GLoop (trailerReceived : bool) (it : list (Chunk O))
| GDone.

(** What one [next()] of the generator does: yield a value, return, or
    throw. *)
Inductive Step :=
| YValue (m : O)
| YDone
| YThrow (e : ConnectError).

(** The [for await (const chunk of iterable)] loop run from a given
    [trailerReceived] until its next [yield], [throw] or the end. A thrown
    error completes the generator. *)
Fixpoint gen_loop (trailerReceived : bool) (it : list (Chunk O))
    (responseTrailer : Deferred Headers) : Step * Gen * Deferred Headers :=
  match it with
  | [] =>
      if trailerReceived then (YDone, GDone, responseTrailer)
      else (YThrow err_missing_trailer, GDone,
            d_reject responseTrailer err_missing_trailer)
  | CErr e :: _ => (YThrow e, GDone, responseTrailer)
  | CEnd t :: rest =>
      if trailerReceived then
        (YThrow err_extra_trailer, GDone, d_reject responseTrailer err_extra_trailer)
      else
        match validate_trailer decode_details t with
        | Some e => (YThrow e, GDone, responseTrailer)
        | None => gen_loop true rest (d_resolve responseTrailer t)
        end
  | CMsg m :: rest =>
      if trailerReceived then
        (YThrow err_extra_message, GDone, d_reject responseTrailer err_extra_message)
      else (YValue m, GLoop trailerReceived rest, responseTrailer)
  end.

(** [outputIt.next()]. *)
Definition gen_next (g : Gen) (responseTrailer : Deferred Headers)
    : Step * Gen * Deferred Headers :=
  match g with
  | GDone => (YDone, GDone, responseTrailer)
  | GStart true it =>
      (* [await iterable[Symbol.asyncIterator]().next()] *)
      match it with
      | [] => (YDone, GDone, responseTrailer)
      | CErr e :: _ => (YThrow e, GDone, responseTrailer)
      | _ :: _ =>
          (YThrow err_extra_trailer, GDone, d_reject responseTrailer err_extra_trailer)
      end
  | GStart false it => gen_loop false it responseTrailer
  | GLoop trailerReceived it => gen_loop trailerReceived it responseTrailer
  end.

(** The mutable state of a [StreamingConn] built by [stream()].
    [validations] counts the runs of [validateResponseWithCompression]; it is
    an observation of the model, not a variable of the source. *)
Record Conn := mkConn {
  outputIt : option Gen;
  responseTrailer : Deferred Headers;
  validations : nat;
  writable : list PI;
  writable_closed : bool
}.

(** The connection right after [stream()] returned it. *)
Definition conn_init : Conn :=
  {| outputIt := None; responseTrailer := DPending; validations := 0;
     writable := []; writable_closed := false |}.

(** The value a [read()] settles with. *)
Inductive ReadResult :=
| RdValue (m : O)          (* { done: false, value } *)
| RdDone                   (* { done: true, value: undefined } *)
| RdReject (e : ConnectError).

Definition read_of_step (s : Step) : ReadResult :=
  match s with
  | YValue m => RdValue m
  | YDone => RdDone
  | YThrow e => RdReject e
  end.

(** [const r = await outputIt.next(); ...] *)
Definition read_next (g : Gen) (c : Conn) : ReadResult * Conn :=
  let '(s, g', rt) := gen_next g (responseTrailer c) in
  (read_of_step s,
   {| outputIt := Some g'; responseTrailer := rt; validations := validations c;
      writable := writable c; writable_closed := writable_closed c |}).

(** The body of [read()] after [const uRes = await universalResponsePromise]:
    validate the response, build [outputIt], then pull from it. A thrown
    validation error leaves [outputIt] undefined. *)
Definition read_first (uRes : UResponse Body) (c : Conn) : ReadResult * Conn :=
  let c1 := {| outputIt := outputIt c; responseTrailer := responseTrailer c;
               validations := S (validations c); writable := writable c;
               writable_closed := writable_closed c |} in
  match validate_response decode_details useBinaryFormat acceptCompression
          (ur_status uRes) (ur_header uRes) with
  | RErr e => (RdReject e, c1)
  | ROk (compression, foundStatus) =>
      read_next (GStart foundStatus (inbound compression (ur_body uRes))) c1
  end.

(** [read()], once the HTTP response [uRes] has arrived. *)
Definition read (uRes : UResponse Body) (c : Conn) : ReadResult * Conn :=
  match outputIt c with
  | None => read_first uRes c
  | Some g => read_next g c
  end.

(** Modelled from the spec: [createWritableIterable] of connect-core, the
    outbound queue fed by [send] and closed by [close] (section 9, "Writable
    iterable"). *)
Definition send (m : PI) (c : Conn) : Conn :=
  {| outputIt := outputIt c; responseTrailer := responseTrailer c;
     validations := validations c; writable := writable c ++ [m];
     writable_closed := writable_closed c |}.

Definition close (c : Conn) : Conn :=
  {| outputIt := outputIt c; responseTrailer := responseTrailer c;
     validations := validations c; writable := writable c;
     writable_closed := true |}.

(** [n] reads in a row on the same connection, with their results. *)
Fixpoint reads (n : nat) (uRes : UResponse Body) (c : Conn)
    : list ReadResult * Conn :=
  match n with
  | 0 => ([], c)
  | S k =>
      let '(r, c') := read uRes c in
      let '(rs, c'') := reads k uRes c' in
      (r :: rs, c'')
  end.

End StreamCall.

End Stream.

(* ------------------------------------------------------------------ *)
(** * Promise jobs around a streaming connection *)

(** The microtask order that relates [responseHeader]
    ([universalResponsePromise.then((r) => r.header)], registered when the
    connection is built) to [read()] ([await universalResponsePromise] while
    [outputIt] is undefined). Reactions registered on a pending promise run,
    once it settles, as jobs in registration order; [await] or [then] on a
    settled promise queues its job at once. *)
Module Jobs.
Import Stream.

Section Jobs.

Variable decode_details : string -> list AnyMsg.
Variable useBinaryFormat : bool.
Variable acceptCompression : list Compression.
Variable PI O Body : Type.
Variable inbound : option Compression -> Body -> list (Chunk O).

(** A reaction registered on [universalResponsePromise]. *)
Inductive Reaction :=
| RxHeader    (* (r) => r.header *)
| RxRead.     (* the continuation of [await universalResponsePromise] in read() *)

(** A queued job, with the settled state of [universalResponsePromise]. *)
Inductive Job :=
| JHeader (p : Deferred (UResponse Body))
| JRead (p : Deferred (UResponse Body)).

Definition job_of (p : Deferred (UResponse Body)) (x : Reaction) : Job :=
  match x with RxHeader => JHeader p | RxRead => JRead p end.

Record JState := mkJState {
  up : Deferred (UResponse Body);        (* universalResponsePromise *)
  rh : Deferred Headers;                 (* conn.responseHeader *)
  reacts : list Reaction;                (* reactions waiting on [up] *)
  queue : list Job;                      (* the microtask queue *)
  conn : Conn PI O;
  completed : list (ReadResult O)        (* settled read() calls, in order *)
}.

(** [responseHeader] settled from a settled [universalResponsePromise]. *)
Definition header_of (p : Deferred (UResponse Body)) : Deferred Headers :=
  match p with
  | DResolved r => DResolved (ur_header r)
  | DRejected e => DRejected e
  | DPending => DPending
  end.

(** Right after [stream()] returned: the HTTP client's promise is pending and
    only the [responseHeader] reaction is registered on it. *)
Definition js_init : JState :=
  {| up := DPending; rh := DPending; reacts := [RxHeader]; queue := [];
     conn := conn_init PI O; completed := [] |}.

Inductive Label :=
| LCallRead                                 (* the caller invokes read() *)
| LSettle (p : Deferred (UResponse Body))   (* the HTTP response head arrives, or the request fails *)
| LRun                                      (* the next microtask runs *)
| LSend (m : PI)
| LClose.

Definition with_conn (s : JState) (c : Conn PI O) (done : list (ReadResult O)) : JState :=
  {| up := up s; rh := rh s; reacts := reacts s; queue := queue s; conn := c;
     completed := done |}.

Definition run_job (s : JState) (j : Job) (q : list Job) : option JState :=
  match j with
  | JHeader p =>
      Some {| up := up s; rh := header_of p; reacts := reacts s; queue := q;
              conn := conn s; completed := completed s |}
  | JRead (DResolved r) =>
      let '(res, c') := read_first decode_details useBinaryFormat acceptCompression
                          PI O Body inbound r (conn s) in
      Some {| up := up s; rh := rh s; reacts := reacts s; queue := q; conn := c';
              completed := completed s ++ [res] |}
  | JRead (DRejected e) =>
      Some {| up := up s; rh := rh s; reacts := reacts s; queue := q; conn := conn s;
              completed := completed s ++ [RdReject O e] |}
  | JRead DPending => None
  end.

Definition jstep (s : JState) (l : Label) : option JState :=
  match l with
  | LCallRead =>
      match outputIt PI O (conn s) with
      | Some g =>
          let '(res, c') := read_next decode_details PI O g (conn s) in
          Some (with_conn s c' (completed s ++ [res]))
      | None =>
          match up s with
          | DPending =>
              Some {| up := up s; rh := rh s; reacts := reacts s ++ [RxRead];
                      queue := queue s; conn := conn s; completed := completed s |}
          | p =>
              Some {| up := up s; rh := rh s; reacts := reacts s;
                      queue := queue s ++ [JRead p]; conn := conn s;
                      completed := completed s |}
          end
      end
  | LSettle p =>
      match up s, p with
      | DPending, DPending => None
      | DPending, _ =>
          Some {| up := p; rh := rh s; reacts := [];
                  queue := queue s ++ map (job_of p) (reacts s); conn := conn s;
                  completed := completed s |}
      | _, _ => None
      end
  | LRun =>
      match queue s with
      | [] => None
      | j :: q => run_job s j q
      end
  | LSend m => Some (with_conn s (send PI O m (conn s)) (completed s))
  | LClose => Some (with_conn s (close PI O (conn s)) (completed s))
  end.

Fixpoint run_trace (s : JState) (tr : list Label) : option JState :=
  match tr with
  | [] => Some s
  | l :: rest =>
      match jstep s l with
      | Some s' => run_trace s' rest
      | None => None
      end
  end.

End Jobs.

Arguments up {PI O Body} _.
Arguments rh {PI O Body} _.
Arguments reacts {PI O Body} _.
Arguments queue {PI O Body} _.
Arguments conn {PI O Body} _.
Arguments completed {PI O Body} _.
Arguments JHeader {Body} p.
Arguments JRead {Body} p.
Arguments header_of {Body} p.
Arguments LSettle {PI Body} p.
Arguments LSend {PI Body} m.
Arguments LCallRead {PI Body}.
Arguments LRun {PI Body}.
Arguments LClose {PI Body}.

End Jobs.

(* ------------------------------------------------------------------ *)
(** * Request and response pipelines *)

Module Pipeline.

Section Pipeline.

(** Typed input messages and partial (structural) input values. *)
Variable I PI : Type.
(** [new method.I(partial)]. *)
Variable newI : PI -> I.

(** A [PartialMessage<I>] as received by [unary()]: an instance of
    [method.I] or a structural value. *)
Inductive MsgInput :=
| Typed (m : I)
| Partial (p : PI).

(** [message instanceof method.I ? message : new method.I(message)] *)
Definition normalize (message : MsgInput) : I :=
  match message with
  | Typed m => m
  | Partial p => newI p
  end.

(** Modelled from the spec: [transformNormalizeMessage(method.I)] of
    connect-core, [normalize] applied to every message of the stream
    (section 4.C). *)
Definition transformNormalizeMessage (it : list MsgInput) : list I :=
  map normalize it.

End Pipeline.

(** A sequence of stream transforms, as passed to [pipe]. *)
Inductive Chain : Type -> Type -> Type :=
| CNil (A : Type) : Chain A A
| CCons (A B C : Type) (t : list A -> list B) (rest : Chain B C) : Chain A C.
Arguments CNil {A}.
Arguments CCons {A B C} t rest.

Fixpoint run_chain {A B : Type} (ch : Chain A B) : list A -> list B :=
  match ch in Chain A0 B0 return list A0 -> list B0 with
  | CNil => fun it => it
  | CCons t rest => fun it => run_chain rest (t it)
  end.

(** [pipe(source, t1, ..., tn)]: each transform consumes the output of the
    previous one. *)
Definition pipe {A B : Type} (source : list A) (ch : Chain A B) : list B :=
  run_chain ch source.

Section Calls.

(** Typed input messages, partial input values, envelopes, byte chunks and
    output messages. *)
Variable I PI Env Bytes O : Type.
Variable newI : PI -> I.
(** The stream transforms of connect-core the call functions compose. *)
Variable transformSerializeEnvelope : list I -> list Env.
Variable transformCompressEnvelope : list Env -> list Env.
Variable transformJoinEnvelopes : list Env -> list Bytes.
Variable transformSplitEnvelope : list Bytes -> list Env.
Variable transformDecompressEnvelope : option Compression -> list Env -> list Env.
Variable transformParseEnvelope : list Env -> list (Chunk O).

(** The [body] handed to the client by [unary()]: [req.message] is the
    normalized input. *)
Definition unary_request_body (message : MsgInput I PI) : list Bytes :=
  pipe [normalize I PI newI message]
    (CCons transformSerializeEnvelope
      (CCons transformCompressEnvelope
        (CCons transformJoinEnvelopes CNil))).

(** The [body] handed to the client by [stream()], over the messages written
    with [send]. *)
Definition stream_request_body (writable : list (MsgInput I PI)) : list Bytes :=
  pipe writable
    (CCons (transformNormalizeMessage I PI newI)
      (CCons transformSerializeEnvelope
        (CCons transformCompressEnvelope
          (CCons transformJoinEnvelopes CNil)))).

(** The parsed items consumed by [unary()] ([pipeTo]) and by [read()] in
    [stream()] ([pipe]); both use the same three transforms. *)
Definition unary_response_items (compression : option Compression)
    (body : list Bytes) : list (Chunk O) :=
  pipe body
    (CCons transformSplitEnvelope
      (CCons (transformDecompressEnvelope compression)
        (CCons transformParseEnvelope CNil))).

Definition stream_response_items (compression : option Compression)
    (body : list Bytes) : list (Chunk O) :=
  pipe body
    (CCons transformSplitEnvelope
      (CCons (transformDecompressEnvelope compression)
        (CCons transformParseEnvelope CNil))).

End Calls.

End Pipeline.

(* ------------------------------------------------------------------ *)
(** * Observations of a streaming connection *)

Module Observe.
Import Stream.

(** [l1] is a prefix of [l2]. *)
Definition is_prefix {A} (l1 l2 : list A) : Prop := exists z, (l1 ++ z)%list = l2.

Section Observe.

Variable O : Type.

(** The message envelopes at the head of a parsed body, up to its first
    trailer envelope or pipeline error. *)
Fixpoint leading_msgs (l : list (Chunk O)) : list O :=
  match l with
  | CMsg m :: rest => m :: leading_msgs rest
  | _ => []
  end.

(** The values delivered by a sequence of read() results. *)
Definition values_of (rs : list (ReadResult O)) : list O :=
  flat_map (fun r => match r with RdValue _ m => [m] | _ => [] end) rs.

(** The parsed items a generator state has still to pull. *)
Definition gen_items (g : Gen O) : list (Chunk O) :=
  match g with
  | GStart _ _ it | GLoop _ _ it => it
  | GDone _ => []
  end.

(** The messages a generator state can still yield. *)
Definition gen_leading (g : Gen O) : list O :=
  match g with
  | GStart _ foundStatus it => if foundStatus then [] else leading_msgs it
  | GLoop _ trailerReceived it => if trailerReceived then [] else leading_msgs it
  | GDone _ => []
  end.

Variable decode_details : string -> list AnyMsg.

(** How [responseTrailer] may stand for a parsed body [L]: pending, resolved
    with a trailer envelope of [L] that [validateTrailer] accepts, or
    rejected with one of the three protocol errors of the generator. *)
Definition trailer_ok (L : list (Chunk O)) (rt : Deferred Headers) : Prop :=
  match rt with
  | DPending => True
  | DResolved t => validate_trailer decode_details t = None /\ In (CEnd t) L
  | DRejected e => e = err_extra_trailer \/ e = err_extra_message \/ e = err_missing_trailer
  end.

End Observe.

Arguments values_of {O} rs.

End Observe.

(* ------------------------------------------------------------------ *)
(** * Concrete calls *)

(** A transport with [useBinaryFormat] and no accepted compression, whose
    parsed response items are given directly, with [nat] output messages. *)
Module Samples.

Definition no_details : string -> list AnyMsg := fun _ => [].

Definition parsed : option Compression -> list (Chunk nat) -> list (Chunk nat) :=
  fun _ b => b.

Definition proto_header : Headers := [("content-type", "application/grpc-web+proto")].

Definition ok_trailer : Headers := [("grpc-status", "0")].

Definition rate_limited_trailer : Headers :=
  [("grpc-status", "8"); ("grpc-message", "rate%20limited")].

Definition rate_limited : ConnectError :=
  new_ConnectError "rate limited" (Some (to_error_code ResourceExhausted)) None.

Definition not_found : ConnectError :=
  new_ConnectError "HTTP 404" (Some (to_error_code Unimplemented)) None.

Definition resp (status : Z) (h : Headers) (body : list (Chunk nat))
    : UResponse (list (Chunk nat)) :=
  mkUResponse status h body.

Definition unary (u : UResponse (list (Chunk nat))) :=
  Unary.unary_call no_details true [] nat (list (Chunk nat)) parsed u.

Definition stream_reads (n : nat) (u : UResponse (list (Chunk nat))) :=
  Stream.reads no_details true [] unit nat (list (Chunk nat)) parsed n u
    (Stream.conn_init unit nat).

Definition stream_trace (tr : list (Jobs.Label unit (list (Chunk nat)))) :=
  Jobs.run_trace no_details true [] unit nat (list (Chunk nat)) parsed
    (Jobs.js_init unit nat (list (Chunk nat))) tr.

Definition status_header : Headers := (proto_header ++ [("grpc-status", "0")])%list.

Definition read_trace : list (Jobs.Label unit (list (Chunk nat))) :=
  [Jobs.LCallRead; Jobs.LSettle (Stream.DResolved (resp 200 proto_header [CMsg 5; CEnd ok_trailer]));
   Jobs.LRun; Jobs.LRun].

Definition state_after (tr : list (Jobs.Label unit (list (Chunk nat)))) :=
  match stream_trace tr with
  | Some s => s
  | None => Jobs.js_init unit nat (list (Chunk nat))
  end.

(** A read() before the HTTP request fails with a 404 error, two read()
    calls after it, and one microtask run in between. *)
Definition fail_trace : list (Jobs.Label unit (list (Chunk nat))) :=
  [Jobs.LCallRead; Jobs.LSettle (Stream.DRejected not_found); Jobs.LCallRead;
   Jobs.LCallRead; Jobs.LRun].

End Samples.

(* ================================================================== *)
(** * Proofs *)

Module UnaryProofs.
Import Unary.

Lemma msgs_of_msg {O} (m : O) l : msgs_of (CMsg m :: l) = m :: msgs_of l.
Proof. reflexivity. Qed.
Lemma msgs_of_end {O} t (l : list (Chunk O)) : msgs_of (CEnd t :: l) = msgs_of l.
Proof. reflexivity. Qed.
Lemma trailers_of_msg {O} (m : O) l : trailers_of (CMsg m :: l) = trailers_of l.
Proof. reflexivity. Qed.
Lemma trailers_of_end {O} t (l : list (Chunk O)) :
  trailers_of (CEnd t :: l) = t :: trailers_of l.
Proof. reflexivity. Qed.

Create Rewrite HintDb chunks.
#[export] Hint Rewrite @msgs_of_msg @msgs_of_end @trailers_of_msg @trailers_of_end
  : chunks.

Ltac chunk_simpl := autorewrite with chunks in *; simpl in *.

Section Collect.

Variable O : Type.

Lemma collect_ok (l : list (Chunk O)) (m0 : option O) (t0 : option Headers) :
  no_err l ->
  length (opt_list m0 ++ msgs_of l) <= 1 ->
  length (opt_list t0 ++ trailers_of l) <= 1 ->
  unary_collect O l m0 t0 =
  ROk (hd_error (opt_list t0 ++ trailers_of l), hd_error (opt_list m0 ++ msgs_of l)).
Proof.
  revert m0 t0; induction l as [|c l IH]; intros m0 t0 Hne Hm Ht.
  - destruct m0, t0; reflexivity.
  - inversion Hne as [|? ? Hc Hl]; subst.
    destruct c as [m|t|e]; chunk_simpl.
    + destruct m0 as [m0|]; simpl in *; [lia|].
      rewrite IH by (first [exact Hl | simpl; lia]). reflexivity.
    + destruct t0 as [t0|]; simpl in *; [lia|].
      rewrite IH by (first [exact Hl | simpl; lia]). reflexivity.
    + contradiction.
Qed.

Lemma collect_ok_inv (l : list (Chunk O)) m0 t0 p :
  unary_collect O l m0 t0 = ROk p ->
  no_err l /\ length (opt_list m0 ++ msgs_of l) <= 1 /\
  length (opt_list t0 ++ trailers_of l) <= 1.
Proof.
  revert m0 t0; induction l as [|c l IH]; intros m0 t0 H.
  - simpl. rewrite !app_nil_r.
    split; [constructor|]. destruct m0, t0; simpl; lia.
  - destruct c as [m|t|e]; simpl in H.
    + destruct m0; [discriminate|].
      destruct (IH _ _ H) as (Hne & Hm & Ht).
      chunk_simpl. repeat split; [constructor; auto | lia | exact Ht].
    + destruct t0; [discriminate|].
      destruct (IH _ _ H) as (Hne & Hm & Ht).
      chunk_simpl. repeat split; [constructor; auto | exact Hm | lia].
    + discriminate.
Qed.

Lemma collect_extra_trailer (l : list (Chunk O)) m0 t0 :
  no_err l ->
  length (opt_list m0 ++ msgs_of l) <= 1 ->
  2 <= length (opt_list t0 ++ trailers_of l) ->
  unary_collect O l m0 t0 = RErr err_extra_trailer.
Proof.
  revert m0 t0; induction l as [|c l IH]; intros m0 t0 Hne Hm Ht.
  - destruct t0; simpl in Ht; lia.
  - inversion Hne as [|? ? Hc Hl]; subst.
    destruct c as [m|t|e]; chunk_simpl.
    + destruct m0 as [m0|]; simpl in *; [lia|].
      apply IH; simpl; auto; lia.
    + destruct t0 as [t0|]; [reflexivity|].
      apply IH; simpl in *; auto; lia.
    + contradiction.
Qed.

Lemma collect_extra_output (l : list (Chunk O)) m0 t0 :
  no_err l ->
  2 <= length (opt_list m0 ++ msgs_of l) ->
  length (opt_list t0 ++ trailers_of l) <= 1 ->
  unary_collect O l m0 t0 = RErr err_extra_output.
Proof.
  revert m0 t0; induction l as [|c l IH]; intros m0 t0 Hne Hm Ht.
  - destruct m0; simpl in Hm; lia.
  - inversion Hne as [|? ? Hc Hl]; subst.
    destruct c as [m|t|e]; chunk_simpl.
    + destruct m0 as [m0|]; [reflexivity|].
      apply IH; simpl in *; auto; lia.
    + destruct t0 as [t0|]; simpl in *; [lia|].
      apply IH; simpl; auto; lia.
    + contradiction.
Qed.

(** Once the loop has thrown on a prefix, what follows is never pulled. *)
Lemma collect_app (l1 l2 : list (Chunk O)) m0 t0 e :
  unary_collect O l1 m0 t0 = RErr e -> unary_collect O (l1 ++ l2) m0 t0 = RErr e.
Proof.
  revert m0 t0; induction l1 as [|c l1 IH]; intros m0 t0 H; simpl in *; [discriminate|].
  destruct c as [x|x|x]; [destruct m0|destruct t0|]; auto.
Qed.

(** A pipeline error reached before any extra envelope is thrown as is. *)
Lemma collect_err_after (l : list (Chunk O)) e rest m0 t0 :
  no_err l ->
  length (opt_list m0 ++ msgs_of l) <= 1 ->
  length (opt_list t0 ++ trailers_of l) <= 1 ->
  unary_collect O (l ++ CErr e :: rest) m0 t0 = RErr e.
Proof.
  revert m0 t0; induction l as [|c l IH]; intros m0 t0 Hne Hm Ht.
  - reflexivity.
  - inversion Hne as [|? ? Hc Hl]; subst.
    destruct c as [m|t|e']; chunk_simpl.
    + destruct m0 as [m0|]; simpl in *; [lia|].
      apply IH; simpl; auto; lia.
    + destruct t0 as [t0|]; simpl in *; [lia|].
      apply IH; simpl; auto; lia.
    + contradiction.
Qed.

End Collect.

Section UnaryCall.

Variable decode_details : string -> list AnyMsg.
Variable useBinaryFormat : bool.
Variable acceptCompression : list Compression.
Variable O Body : Type.
Variable inbound : option Compression -> Body -> list (Chunk O).

Local Abbreviation call :=
  (unary_call decode_details useBinaryFormat acceptCompression O Body inbound).
Local Abbreviation vresp := (validate_response decode_details useBinaryFormat acceptCompression).

(** C2: for a response that is not trailers-only, the unary call succeeds
    only with exactly one message envelope and exactly one trailer envelope
    (in either order, and then it returns them); two trailers fail with
    "received extra trailer", two messages with "received extra output message
    for unary method", no trailer with "missing trailer", and no message next
    to a valid trailer with "missing output message for unary method". *)
Theorem unary_envelope_counts (status : Z) (h : Headers) (b : Body)
    (c : option Compression)
    (Hv : vresp status h = ROk (c, false)) :
  (forall r, call (mkUResponse status h b) = ROk r ->
     length (msgs_of (inbound c b)) = 1 /\ length (trailers_of (inbound c b)) = 1) /\
  (forall m t, no_err (inbound c b) -> msgs_of (inbound c b) = [m] ->
     trailers_of (inbound c b) = [t] -> validate_trailer decode_details t = None ->
     call (mkUResponse status h b) =
     ROk {| u_header := h; u_message := m; u_trailer := t |}) /\
  (no_err (inbound c b) -> length (msgs_of (inbound c b)) <= 1 ->
     2 <= length (trailers_of (inbound c b)) ->
     call (mkUResponse status h b) = RErr err_extra_trailer) /\
  (no_err (inbound c b) -> 2 <= length (msgs_of (inbound c b)) ->
     length (trailers_of (inbound c b)) <= 1 ->
     call (mkUResponse status h b) = RErr err_extra_output) /\
  (no_err (inbound c b) -> length (msgs_of (inbound c b)) <= 1 ->
     trailers_of (inbound c b) = [] ->
     call (mkUResponse status h b) = RErr err_missing_trailer) /\
  (forall t, no_err (inbound c b) -> msgs_of (inbound c b) = [] ->
     trailers_of (inbound c b) = [t] -> validate_trailer decode_details t = None ->
     call (mkUResponse status h b) = RErr err_missing_output).
Proof.
  unfold unary_call; simpl; rewrite Hv.
  set (l := inbound c b).
  split; [|split; [|split; [|split; [|split]]]].
  - intros res Hr.
    destruct (unary_collect O l None None) as [[t m]|e] eqn:Hc; [|discriminate].
    destruct (collect_ok_inv O l None None _ Hc) as (Hne & Hm & Ht).
    rewrite (collect_ok O l None None Hne Hm Ht) in Hc. simpl in *.
    injection Hc as Ht' Hm'.
    destruct t as [t|]; [|discriminate].
    destruct (validate_trailer decode_details t); [discriminate|].
    destruct m as [m|]; [|discriminate].
    destruct (msgs_of l) as [|x [|y xs]]; simpl in *; try discriminate; try lia.
    destruct (trailers_of l) as [|x' [|y' xs']]; simpl in *; try discriminate; lia.
  - intros m t Hne Hm Ht Hvt.
    rewrite (collect_ok O l None None Hne) by (simpl; rewrite ?Hm, ?Ht; simpl; lia).
    simpl. rewrite Hm, Ht. simpl. rewrite Hvt. reflexivity.
  - intros Hne Hm Ht.
    rewrite (collect_extra_trailer O l None None Hne) by (simpl; lia). reflexivity.
  - intros Hne Hm Ht.
    rewrite (collect_extra_output O l None None Hne) by (simpl; lia). reflexivity.
  - intros Hne Hm Ht.
    rewrite (collect_ok O l None None Hne) by (simpl; rewrite ?Ht; simpl; lia).
    simpl. rewrite Ht. reflexivity.
  - intros t Hne Hm Ht Hvt.
    rewrite (collect_ok O l None None Hne) by (simpl; rewrite ?Hm, ?Ht; simpl; lia).
    simpl. rewrite Hm, Ht. simpl. rewrite Hvt. reflexivity.
Qed.

(** C4: a trailers-only response with [grpc-status: 0] (validation reports
    [foundStatus]) and an empty body makes the unary call fail with
    "missing trailer": [unary()] ignores [foundStatus]. *)
Theorem unary_trailers_only_ok (status : Z) (h : Headers) (b : Body)
    (c : option Compression)
    (Hv : vresp status h = ROk (c, true))
    (Hb : inbound c b = []) :
  call (mkUResponse status h b) = RErr err_missing_trailer.
Proof.
  unfold unary_call; simpl; rewrite Hv, Hb. reflexivity.
Qed.

(** A successful unary call saw a valid response head, a parsed body without
    pipeline error holding exactly the returned message and the returned
    trailer, that trailer passes [validateTrailer], and the returned header is
    the HTTP response header. *)
Theorem unary_success_shape (status : Z) (h : Headers) (b : Body) (r : UnaryResponse O)
    (H : call (mkUResponse status h b) = ROk r) :
  exists comp foundStatus,
    vresp status h = ROk (comp, foundStatus) /\
    no_err (inbound comp b) /\
    msgs_of (inbound comp b) = [u_message O r] /\
    trailers_of (inbound comp b) = [u_trailer O r] /\
    validate_trailer decode_details (u_trailer O r) = None /\
    u_header O r = h.
Proof.
  unfold unary_call in H; simpl in H.
  destruct (vresp status h) as [[comp fs]|e] eqn:Hv; [|discriminate].
  exists comp, fs.
  set (l := inbound comp b) in *.
  destruct (unary_collect O l None None) as [[t m]|e] eqn:Hc; [|discriminate].
  destruct (collect_ok_inv O l None None _ Hc) as (Hne & Hm & Ht).
  rewrite (collect_ok O l None None Hne Hm Ht) in Hc. simpl in Hc, Hm, Ht.
  injection Hc as Ht' Hm'.
  destruct t as [t|]; [|discriminate].
  destruct (validate_trailer decode_details t) eqn:Hvt; [discriminate|].
  destruct m as [m|]; [|discriminate].
  injection H as <-. simpl.
  destruct (msgs_of l) as [|x [|y xs]]; simpl in *; try discriminate; try lia.
  destruct (trailers_of l) as [|x' [|y' xs']]; simpl in *; try discriminate; try lia.
  injection Hm' as ->. injection Ht' as ->.
  split; [reflexivity|]. split; [exact Hne|]. split; [reflexivity|].
  split; [reflexivity|]. split; [exact Hvt | reflexivity].
Qed.

(** The trailer's status decides before the message count: with one trailer
    envelope whose [validateTrailer] throws, at most one message and no
    pipeline error, the unary call fails with the trailer's error, also when
    the message is missing and also for a trailers-only response head. *)
Theorem unary_trailer_error_first (status : Z) (h : Headers) (b : Body)
    (comp : option Compression) (foundStatus : bool) (t : Headers) (e : ConnectError)
    (Hv : vresp status h = ROk (comp, foundStatus))
    (Hne : no_err (inbound comp b))
    (Hm : length (msgs_of (inbound comp b)) <= 1)
    (Ht : trailers_of (inbound comp b) = [t])
    (He : validate_trailer decode_details t = Some e) :
  call (mkUResponse status h b) = RErr e.
Proof.
  unfold unary_call; simpl; rewrite Hv.
  rewrite (collect_ok O _ None None Hne) by (simpl; rewrite ?Ht; simpl; lia).
  simpl. rewrite Ht. simpl. rewrite He. reflexivity.
Qed.

(** The unary call fails with the first violation in the parsed body: once
    the collect loop throws on a prefix, the rest of the body is never
    consulted; in particular a pipeline error met after at most one message
    and one trailer is the call's error. *)
Theorem unary_first_violation (status : Z) (h : Headers) (b : Body)
    (comp : option Compression) (foundStatus : bool)
    (Hv : vresp status h = ROk (comp, foundStatus)) :
  (forall l1 l2 e, inbound comp b = (l1 ++ l2)%list ->
     unary_collect O l1 None None = RErr e ->
     call (mkUResponse status h b) = RErr e) /\
  (forall l e rest, inbound comp b = (l ++ CErr e :: rest)%list ->
     no_err l -> length (msgs_of l) <= 1 -> length (trailers_of l) <= 1 ->
     call (mkUResponse status h b) = RErr e).
Proof.
  split.
  - intros l1 l2 e Hb Hc.
    unfold unary_call; simpl; rewrite Hv, Hb, (collect_app O l1 l2 None None e Hc).
    reflexivity.
  - intros l e rest Hb Hne Hm Ht.
    unfold unary_call; simpl; rewrite Hv, Hb.
    rewrite (collect_err_after O l e rest None None Hne) by (simpl; lia).
    reflexivity.
Qed.

End UnaryCall.

End UnaryProofs.

Module StreamProofs.
Import Stream Observe.

Section StreamCall.

Variable decode_details : string -> list AnyMsg.
Variable useBinaryFormat : bool.
Variable acceptCompression : list Compression.
Variable PI O Body : Type.
Variable inbound : option Compression -> Body -> list (Chunk O).

Local Abbreviation rd :=
  (read decode_details useBinaryFormat acceptCompression PI O Body inbound).
Local Abbreviation rds :=
  (reads decode_details useBinaryFormat acceptCompression PI O Body inbound).
Local Abbreviation vresp := (validate_response decode_details useBinaryFormat acceptCompression).

(** The connection with [outputIt] replaced. *)
Definition set_it (c : Conn PI O) (g : Gen O) : Conn PI O :=
  {| outputIt := Some g; responseTrailer := responseTrailer PI O c;
     validations := validations PI O c; writable := writable PI O c;
     writable_closed := writable_closed PI O c |}.

(** The connection after one more response validation. *)
Definition bump (c : Conn PI O) : Conn PI O :=
  {| outputIt := outputIt PI O c; responseTrailer := responseTrailer PI O c;
     validations := S (validations PI O c); writable := writable PI O c;
     writable_closed := writable_closed PI O c |}.

Lemma set_it_same (c : Conn PI O) g :
  outputIt PI O c = Some g -> set_it c g = c.
Proof. destruct c; simpl; intros ->; reflexivity. Qed.

Lemma set_it_set_it (c : Conn PI O) g g' : set_it (set_it c g) g' = set_it c g'.
Proof. reflexivity. Qed.

Lemma reads_S n u (c : Conn PI O) :
  rds (S n) u c = let '(r, c') := rd u c in let '(rs, c'') := rds n u c' in (r :: rs, c'').
Proof. reflexivity. Qed.

Lemma reads_same_first n u (c c' : Conn PI O) :
  rd u c = rd u c' -> rds (S n) u c = rds (S n) u c'.
Proof. intros H. rewrite !reads_S, H. reflexivity. Qed.

(** The first read() after a successful validation behaves as if [outputIt]
    had been set to the loop over the whole parsed body. *)
Lemma read_first_loop u (c : Conn PI O) comp :
  outputIt PI O c = None ->
  vresp (ur_status u) (ur_header u) = ROk (comp, false) ->
  rd u c = rd u (set_it (bump c) (GLoop O false (inbound comp (ur_body u)))).
Proof.
  intros Hc Hv. unfold read, read_first. rewrite Hc, Hv. reflexivity.
Qed.

Lemma read_first_found u (c : Conn PI O) comp :
  outputIt PI O c = None ->
  vresp (ur_status u) (ur_header u) = ROk (comp, true) ->
  rd u c = rd u (set_it (bump c) (GStart O true (inbound comp (ur_body u)))).
Proof.
  intros Hc Hv. unfold read, read_first. rewrite Hc, Hv. reflexivity.
Qed.

Lemma reads_msgs u ms l k (c : Conn PI O) :
  outputIt PI O c = Some (GLoop O false (map CMsg ms ++ l)) ->
  rds (length ms + k) u c =
  let '(rs, c'') := rds k u (set_it c (GLoop O false l)) in
  ((map (RdValue O) ms ++ rs)%list, c'').
Proof.
  revert c; induction ms as [|m ms IH]; intros c Hc.
  - simpl in *. rewrite (set_it_same c _ Hc).
    destruct (rds k u c); reflexivity.
  - change (length (m :: ms) + k) with (S (length ms + k)). rewrite reads_S.
    unfold read at 1. rewrite Hc. simpl.
    pose proof (IH (set_it c (GLoop O false (map CMsg ms ++ l))) eq_refl) as IH'.
    rewrite set_it_set_it in IH'. unfold set_it in *. rewrite IH'.
    destruct (rds k u _); reflexivity.
Qed.

Lemma reads_done u k (c : Conn PI O) :
  outputIt PI O c = Some (GDone O) -> rds k u c = (repeat (RdDone O) k, c).
Proof.
  intros Hc; induction k as [|k IH]; [reflexivity|].
  rewrite reads_S. unfold read at 1. rewrite Hc. simpl.
  change {| outputIt := Some (GDone O); responseTrailer := responseTrailer PI O c;
            validations := validations PI O c; writable := writable PI O c;
            writable_closed := writable_closed PI O c |} with (set_it c (GDone O)).
  rewrite (set_it_same c _ Hc), IH. reflexivity.
Qed.


(** The read() that fails on what follows a valid trailer envelope. *)
Definition after_trailer_error {O} (x : Chunk O) : ConnectError :=
  match x with
  | CEnd _ => err_extra_trailer
  | CMsg _ => err_extra_message
  | CErr e => e
  end.

(** C1: a first trailer envelope whose status is not OK fails the read()
    that reaches it with the trailer's error, after the messages before it
    were read; but every later read() returns done instead of failing, and
    [responseTrailer] is still pending afterwards: [validateTrailer] throws
    before [responseTrailer] is settled, and nothing rejects it. *)
Theorem stream_trailer_error status h b comp ms t rest e k
    (Hv : vresp status h = ROk (comp, false))
    (Hb : inbound comp b = (map CMsg ms ++ CEnd t :: rest)%list)
    (Ht : validate_trailer decode_details t = Some e) :
  fst (rds (length ms + S k) (mkUResponse status h b) (conn_init PI O)) =
  (map (RdValue O) ms ++ RdReject O e :: repeat (RdDone O) k)%list /\
  responseTrailer PI O
    (snd (rds (length ms + S k) (mkUResponse status h b) (conn_init PI O))) = DPending.
Proof.
  set (u := mkUResponse status h b).
  enough (H : exists c, rds (length ms + S k) u (conn_init PI O) =
            ((map (RdValue O) ms ++ RdReject O e :: repeat (RdDone O) k)%list, c) /\
            responseTrailer PI O c = DPending)
    by (destruct H as (c & -> & Hc); split; [reflexivity | exact Hc]).
  rewrite Nat.add_succ_r.
  rewrite (reads_same_first _ u (conn_init PI O) _
             (read_first_loop u (conn_init PI O) comp eq_refl Hv)).
  rewrite <- Nat.add_succ_r.
  simpl ur_body. rewrite Hb.
  rewrite (reads_msgs u ms (CEnd t :: rest) (S k)
             (set_it (bump (conn_init PI O)) (GLoop O false (map CMsg ms ++ CEnd t :: rest)))
             eq_refl).
  rewrite reads_S. unfold read at 1, read_next. simpl. rewrite Ht. simpl.
  rewrite reads_done by reflexivity. eexists; split; reflexivity.
Qed.

(** C3: for a trailers-only response (validation reports [foundStatus]) with
    an empty body, every read() returns done, and [responseTrailer] is still
    pending afterwards: the trailers-only branch never resolves it. *)
Theorem stream_trailers_only status h b comp k
    (Hv : vresp status h = ROk (comp, true))
    (Hb : inbound comp b = []) :
  fst (rds (S k) (mkUResponse status h b) (conn_init PI O)) = repeat (RdDone O) (S k) /\
  responseTrailer PI O (snd (rds (S k) (mkUResponse status h b) (conn_init PI O)))
    = DPending.
Proof.
  set (u := mkUResponse status h b).
  rewrite (reads_same_first _ u (conn_init PI O) _
             (read_first_found u (conn_init PI O) comp eq_refl Hv)).
  simpl ur_body. rewrite Hb.
  rewrite reads_S. unfold read at 1. simpl.
  rewrite reads_done by reflexivity. split; reflexivity.
Qed.

(** C5 (as amended): an envelope after a valid first trailer fails the
    read() with "received extra trailer" or "received extra message after
    trailer" while [responseTrailer] stays resolved with the first trailer;
    a body that ends without a trailer fails the read() with "missing
    trailer" and rejects [responseTrailer] with that error. *)
Theorem stream_after_trailer status h b comp
    (Hv : vresp status h = ROk (comp, false)) :
  (forall ms t x rest,
     inbound comp b = (map CMsg ms ++ CEnd t :: x :: rest)%list ->
     validate_trailer decode_details t = None ->
     fst (rds (length ms + 1) (mkUResponse status h b) (conn_init PI O)) =
       (map (RdValue O) ms ++ [RdReject O (after_trailer_error x)])%list /\
     responseTrailer PI O (snd (rds (length ms + 1) (mkUResponse status h b)
                                  (conn_init PI O))) = DResolved t) /\
  (forall ms,
     inbound comp b = map CMsg ms ->
     fst (rds (length ms + 1) (mkUResponse status h b) (conn_init PI O)) =
       (map (RdValue O) ms ++ [RdReject O err_missing_trailer])%list /\
     responseTrailer PI O (snd (rds (length ms + 1) (mkUResponse status h b)
                                  (conn_init PI O))) = DRejected err_missing_trailer).
Proof.
  set (u := mkUResponse status h b).
  assert (Hfirst : forall n, rds (n + 1) u (conn_init PI O) =
            rds (n + 1) u (set_it (bump (conn_init PI O))
                                 (GLoop O false (inbound comp b)))).
  { intros n. rewrite Nat.add_1_r.
    apply reads_same_first, (read_first_loop u (conn_init PI O) comp eq_refl Hv). }
  split.
  - intros ms t x rest Hb Ht.
    rewrite Hfirst, Hb.
    rewrite (reads_msgs u ms (CEnd t :: x :: rest) 1
             (set_it (bump (conn_init PI O)) (GLoop O false (map CMsg ms ++ CEnd t :: x :: rest)))
             eq_refl).
    rewrite reads_S. unfold read, read_next. simpl. rewrite Ht.
    destruct x; simpl; split; reflexivity.
  - intros ms Hb.
    rewrite Hfirst, Hb.
    rewrite <- (app_nil_r (map CMsg ms)).
    rewrite (reads_msgs u ms [] 1
             (set_it (bump (conn_init PI O)) (GLoop O false (map CMsg ms ++ [])))
             eq_refl).
    simpl. split; reflexivity.
Qed.

(** The messages the reads of the response [u] can deliver from a fresh
    connection: none if validation throws or reports [foundStatus], else the
    messages at the head of the parsed body. *)
Definition first_msgs (u : UResponse Body) : list O :=
  match vresp (ur_status u) (ur_header u) with
  | ROk (comp, foundStatus) =>
      if foundStatus then [] else leading_msgs O (inbound comp (ur_body u))
  | RErr _ => []
  end.

(** What a connection can still deliver. *)
Definition cur (u : UResponse Body) (c : Conn PI O) : list O :=
  match outputIt PI O c with
  | None => first_msgs u
  | Some g => gen_leading O g
  end.

(** The parsed body of [u] once validated. *)
Definition body_items (u : UResponse Body) : list (Chunk O) :=
  match vresp (ur_status u) (ur_header u) with
  | ROk (comp, _) => inbound comp (ur_body u)
  | RErr _ => []
  end.

(** The generator pulls from a suffix of the validated body and
    [responseTrailer] stands as [trailer_ok] says. *)
Definition conn_ok (u : UResponse Body) (c : Conn PI O) : Prop :=
  match outputIt PI O c with
  | None => True
  | Some g => exists p, (p ++ gen_items O g)%list = body_items u
  end /\ trailer_ok O decode_details (body_items u) (responseTrailer PI O c).

Lemma gen_loop_leading tr it rt s g' rt' :
  gen_loop decode_details O tr it rt = (s, g', rt') ->
  is_prefix (values_of [read_of_step O s] ++ gen_leading O g')
            (if tr then [] else leading_msgs O it).
Proof.
  revert tr rt; induction it as [|x it IH]; intros tr rt H.
  - destruct tr; simpl in H; injection H as <- <- <-; exists []; reflexivity.
  - destruct x as [m|t|e]; destruct tr; simpl in H.
    + injection H as <- <- <-; exists []; reflexivity.
    + injection H as <- <- <-; exists []; simpl; rewrite app_nil_r; reflexivity.
    + injection H as <- <- <-; exists []; reflexivity.
    + destruct (validate_trailer decode_details t).
      * injection H as <- <- <-; exists []; reflexivity.
      * exact (IH true _ H).
    + injection H as <- <- <-; exists []; reflexivity.
    + injection H as <- <- <-; exists []; reflexivity.
Qed.

Lemma gen_next_leading g rt s g' rt' :
  gen_next decode_details O g rt = (s, g', rt') ->
  is_prefix (values_of [read_of_step O s] ++ gen_leading O g') (gen_leading O g).
Proof.
  destruct g as [[|] it|tr it|]; simpl.
  - destruct it as [|[m|t|e] it]; intros H; injection H as <- <- <-; exists []; reflexivity.
  - apply gen_loop_leading.
  - apply gen_loop_leading.
  - intros H; injection H as <- <- <-; exists []; reflexivity.
Qed.

Lemma read_leading u c r c' :
  rd u c = (r, c') -> is_prefix (values_of [r] ++ cur u c') (cur u c).
Proof.
  unfold read, cur.
  destruct (outputIt PI O c) as [g|] eqn:Hc.
  - unfold read_next.
    destruct (gen_next decode_details O g (responseTrailer PI O c)) as [[s g'] rt] eqn:E.
    intros H; injection H as <- <-. exact (gen_next_leading _ _ _ _ _ E).
  - unfold read_first, first_msgs.
    destruct (vresp (ur_status u) (ur_header u)) as [[comp fs]|e].
    + unfold read_next. cbn [responseTrailer].
      destruct (gen_next decode_details O (GStart O fs (inbound comp (ur_body u)))
                  (responseTrailer PI O c)) as [[s g'] rt] eqn:E.
      intros H; injection H as <- <-. exact (gen_next_leading _ _ _ _ _ E).
    + intros H; injection H as <- <-. simpl. rewrite Hc. exists []. reflexivity.
Qed.

Lemma reads_leading n u c : is_prefix (values_of (fst (rds n u c))) (cur u c).
Proof.
  revert c; induction n as [|n IH]; intros c.
  - exists (cur u c). reflexivity.
  - rewrite reads_S. destruct (rd u c) as [r c'] eqn:E.
    specialize (IH c'). destruct (rds n u c') as [rs c''] eqn:E2. cbn [fst] in *.
    destruct (read_leading u c r c' E) as [z1 Hz1]. destruct IH as [z2 Hz2].
    exists (z2 ++ z1)%list.
    assert (Hv : values_of (r :: rs) = (values_of [r] ++ values_of rs)%list).
    { unfold values_of. simpl. rewrite app_nil_r. reflexivity. }
    rewrite Hv, <- Hz1, <- Hz2, !app_assoc. reflexivity.
Qed.

Lemma d_reject_ok L rt e :
  trailer_ok O decode_details L rt ->
  e = err_extra_trailer \/ e = err_extra_message \/ e = err_missing_trailer ->
  trailer_ok O decode_details L (d_reject rt e).
Proof. destruct rt; simpl; auto. Qed.

Lemma d_resolve_ok L rt t :
  trailer_ok O decode_details L rt -> validate_trailer decode_details t = None ->
  In (CEnd t) L -> trailer_ok O decode_details L (d_resolve rt t).
Proof. destruct rt; simpl; auto. Qed.

Lemma gen_loop_ok L tr it rt p s g' rt' :
  (p ++ it)%list = L -> trailer_ok O decode_details L rt ->
  gen_loop decode_details O tr it rt = (s, g', rt') ->
  (exists p', (p' ++ gen_items O g')%list = L) /\ trailer_ok O decode_details L rt'.
Proof.
  revert p tr rt; induction it as [|x it IH]; intros p tr rt Hp Hrt H.
  - destruct tr; simpl in H; injection H as <- <- <-;
      (split; [exists L; apply app_nil_r|]);
      [exact Hrt | apply d_reject_ok; [exact Hrt | right; right; reflexivity]].
  - destruct x as [m|t|e]; destruct tr; simpl in H.
    + injection H as <- <- <-. split; [exists L; apply app_nil_r|].
      apply d_reject_ok; [exact Hrt | right; left; reflexivity].
    + injection H as <- <- <-. split; [|exact Hrt].
      exists (p ++ [CMsg m])%list. rewrite <- app_assoc. exact Hp.
    + injection H as <- <- <-. split; [exists L; apply app_nil_r|].
      apply d_reject_ok; [exact Hrt | left; reflexivity].
    + destruct (validate_trailer decode_details t) eqn:Ev.
      * injection H as <- <- <-. split; [exists L; apply app_nil_r | exact Hrt].
      * apply (IH (p ++ [CEnd t])%list true (d_resolve rt t)); [| |exact H].
        -- rewrite <- app_assoc. exact Hp.
        -- apply d_resolve_ok; [exact Hrt | exact Ev |].
           rewrite <- Hp. apply in_or_app. right. left. reflexivity.
    + injection H as <- <- <-. split; [exists L; apply app_nil_r | exact Hrt].
    + injection H as <- <- <-. split; [exists L; apply app_nil_r | exact Hrt].
Qed.

Lemma gen_next_ok L g rt s g' rt' :
  (exists p, (p ++ gen_items O g)%list = L) -> trailer_ok O decode_details L rt ->
  gen_next decode_details O g rt = (s, g', rt') ->
  (exists p', (p' ++ gen_items O g')%list = L) /\ trailer_ok O decode_details L rt'.
Proof.
  destruct g as [[|] it|tr it|]; simpl; intros [p Hp] Hrt H.
  - destruct it as [|[m|t|e] it]; injection H as <- <- <-;
      (split; [exists L; apply app_nil_r|]);
      first [exact Hrt | apply d_reject_ok; [exact Hrt | left; reflexivity]].
  - exact (gen_loop_ok L false it rt p s g' rt' Hp Hrt H).
  - exact (gen_loop_ok L tr it rt p s g' rt' Hp Hrt H).
  - injection H as <- <- <-. split; [exists L; apply app_nil_r | exact Hrt].
Qed.

Lemma read_ok u c r c' : conn_ok u c -> rd u c = (r, c') -> conn_ok u c'.
Proof.
  unfold conn_ok, read.
  destruct (outputIt PI O c) as [g|] eqn:Hc; intros [Hi Hrt] H.
  - unfold read_next in H.
    destruct (gen_next decode_details O g (responseTrailer PI O c)) as [[s g'] rt] eqn:E.
    injection H as <- <-. simpl. exact (gen_next_ok _ g _ s g' rt Hi Hrt E).
  - unfold read_first in H. unfold body_items in *.
    destruct (vresp (ur_status u) (ur_header u)) as [[comp fs]|e].
    + unfold read_next in H. cbn [responseTrailer] in H.
      destruct (gen_next decode_details O (GStart O fs (inbound comp (ur_body u)))
                  (responseTrailer PI O c)) as [[s g'] rt] eqn:E.
      injection H as <- <-. simpl.
      exact (gen_next_ok (inbound comp (ur_body u)) (GStart O fs (inbound comp (ur_body u)))
               _ s g' rt (ex_intro _ [] eq_refl) Hrt E).
    + injection H as <- <-. simpl. rewrite Hc. split; [exact I | exact Hrt].
Qed.

Lemma reads_ok n u c : conn_ok u c -> conn_ok u (snd (rds n u c)).
Proof.
  revert c; induction n as [|n IH]; intros c H; [exact H|].
  rewrite reads_S. destruct (rd u c) as [r c'] eqn:E.
  specialize (IH c' (read_ok u c r c' H E)).
  destruct (rds n u c') as [rs c'']. exact IH.
Qed.

Lemma gen_loop_final tr it rt s g' rt' :
  gen_loop decode_details O tr it rt = (s, g', rt') ->
  match s with YValue _ _ => True | _ => g' = GDone O end.
Proof.
  revert tr rt; induction it as [|x it IH]; intros tr rt H.
  - destruct tr; simpl in H; injection H as <- <- <-; reflexivity.
  - destruct x as [m|t|e]; destruct tr; simpl in H.
    + injection H as <- <- <-; reflexivity.
    + injection H as <- <- <-; exact I.
    + injection H as <- <- <-; reflexivity.
    + destruct (validate_trailer decode_details t).
      * injection H as <- <- <-; reflexivity.
      * exact (IH true _ H).
    + injection H as <- <- <-; reflexivity.
    + injection H as <- <- <-; reflexivity.
Qed.

Lemma gen_next_final g rt s g' rt' :
  gen_next decode_details O g rt = (s, g', rt') ->
  match s with YValue _ _ => True | _ => g' = GDone O end.
Proof.
  destruct g as [[|] it|tr it|]; simpl.
  - destruct it as [|[m|t|e] it]; intros H; injection H as <- <- <-; reflexivity.
  - apply gen_loop_final.
  - apply gen_loop_final.
  - intros H; injection H as <- <- <-; reflexivity.
Qed.

Lemma read_next_final g c r c' :
  read_next decode_details PI O g c = (r, c') ->
  exists g', outputIt PI O c' = Some g' /\ validations PI O c' = validations PI O c /\
    match r with RdValue _ _ => True | _ => g' = GDone O end.
Proof.
  unfold read_next.
  destruct (gen_next decode_details O g (responseTrailer PI O c)) as [[s g'] rt] eqn:E.
  intros H; injection H as <- <-. exists g'. split; [reflexivity|]. split; [reflexivity|].
  pose proof (gen_next_final _ _ _ _ _ E) as Hf. destruct s; exact Hf.
Qed.

Lemma read_final u c r c' :
  (outputIt PI O c = None -> exists p, vresp (ur_status u) (ur_header u) = ROk p) ->
  rd u c = (r, c') ->
  exists g', outputIt PI O c' = Some g' /\
    match r with RdValue _ _ => True | _ => g' = GDone O end.
Proof.
  intros Hp. unfold read.
  destruct (outputIt PI O c) as [g|] eqn:Hc.
  - intros H. destruct (read_next_final g c r c' H) as (g' & H1 & _ & H3). eauto.
  - destruct (Hp eq_refl) as [[comp fs] Hv].
    unfold read_first. rewrite Hv. intros H.
    destruct (read_next_final _ _ r c' H) as (g' & H1 & _ & H3). eauto.
Qed.

Lemma reads_final n u c rs1 r rs2 :
  (outputIt PI O c = None -> exists p, vresp (ur_status u) (ur_header u) = ROk p) ->
  fst (rds n u c) = (rs1 ++ r :: rs2)%list ->
  match r with RdValue _ _ => False | _ => True end ->
  rs2 = repeat (RdDone O) (length rs2).
Proof.
  revert c rs1; induction n as [|n IH]; intros c rs1 Hp H Hr.
  - destruct rs1; discriminate.
  - rewrite reads_S in H. destruct (rd u c) as [r0 c0] eqn:E.
    destruct (read_final u c r0 c0 Hp E) as (g' & Hg' & Hr0).
    destruct (rds n u c0) as [rs c''] eqn:E2. simpl in H.
    destruct rs1 as [|x rs1]; simpl in H; injection H as Hx Hrs.
    + subst r0 rs. destruct r as [m| |e]; [contradiction| |];
        subst g'; rewrite (reads_done u n c0 Hg') in E2; injection E2 as <- _;
        rewrite repeat_length; reflexivity.
    + apply (IH c0 rs1); [intros Hn; congruence | rewrite E2; exact Hrs | exact Hr].
Qed.



(** From a fresh connection, the values delivered by any number of read()
    calls are, in order, a prefix of the message envelopes at the head of the
    parsed body: no read() ever delivers a message that follows the first
    trailer envelope or a pipeline error, and none at all when validation
    throws or reports a trailers-only response. *)
Theorem stream_values_in_wire_order n u :
  is_prefix (values_of (fst (rds n u (conn_init PI O))))
    (match vresp (ur_status u) (ur_header u) with
     | ROk (comp, foundStatus) =>
         if foundStatus then [] else leading_msgs O (inbound comp (ur_body u))
     | RErr _ => []
     end).
Proof. exact (reads_leading n u (conn_init PI O)). Qed.

(** After any number of read() calls on a fresh connection, [responseTrailer]
    is pending, or resolved with a trailer envelope of the parsed body that
    [validateTrailer] accepts, or rejected with "received extra trailer",
    "received extra message after trailer" or "missing trailer": never with a
    trailer's status error nor with a pipeline error. *)
Theorem stream_trailer_settlement n u :
  trailer_ok O decode_details (body_items u)
    (responseTrailer PI O (snd (rds n u (conn_init PI O)))).
Proof.
  apply reads_ok. split; exact I.
Qed.

(** Once the generator exists, a read() that does not deliver a value is the
    last one that does anything: when validation succeeds, every read()
    after the first one that returns done or rejects returns done. *)
Theorem stream_end_is_final n u p rs1 r rs2
    (Hv : vresp (ur_status u) (ur_header u) = ROk p)
    (H : fst (rds n u (conn_init PI O)) = (rs1 ++ r :: rs2)%list)
    (Hr : forall m, r <> RdValue O m) :
  rs2 = repeat (RdDone O) (length rs2).
Proof.
  apply (reads_final n u (conn_init PI O) rs1 r rs2 (fun _ => ex_intro _ p Hv) H).
  destruct r as [m| |e]; [exact (Hr m eq_refl) | exact I | exact I].
Qed.


(** A body of messages followed by one trailer envelope that
    [validateTrailer] accepts: the reads deliver the messages in order, then
    return done for ever, and [responseTrailer] is resolved with the
    trailer. *)
Theorem stream_happy_path status h b comp ms t k
    (Hv : vresp status h = ROk (comp, false))
    (Hb : inbound comp b = (map CMsg ms ++ [CEnd t])%list)
    (Ht : validate_trailer decode_details t = None) :
  fst (rds (length ms + S k) (mkUResponse status h b) (conn_init PI O)) =
    (map (RdValue O) ms ++ repeat (RdDone O) (S k))%list /\
  responseTrailer PI O (snd (rds (length ms + S k) (mkUResponse status h b)
                              (conn_init PI O))) = DResolved t.
Proof.
  set (u := mkUResponse status h b).
  rewrite Nat.add_succ_r.
  rewrite (reads_same_first _ u (conn_init PI O) _
             (read_first_loop u (conn_init PI O) comp eq_refl Hv)).
  rewrite <- Nat.add_succ_r.
  simpl ur_body. rewrite Hb.
  rewrite (reads_msgs u ms [CEnd t] (S k)
             (set_it (bump (conn_init PI O)) (GLoop O false (map CMsg ms ++ [CEnd t])))
             eq_refl).
  rewrite reads_S. unfold read, read_next. simpl. rewrite Ht. simpl.
  rewrite reads_done by reflexivity. split; reflexivity.
Qed.

(** A pipeline error (thrown by split, decompress or parse) after some
    messages and before any trailer: the reads deliver the messages, the
    next one rejects with that error, every later one returns done, and
    [responseTrailer] is left pending. *)
Theorem stream_pipeline_error status h b comp ms e rest k
    (Hv : vresp status h = ROk (comp, false))
    (Hb : inbound comp b = (map CMsg ms ++ CErr e :: rest)%list) :
  fst (rds (length ms + S k) (mkUResponse status h b) (conn_init PI O)) =
    (map (RdValue O) ms ++ RdReject O e :: repeat (RdDone O) k)%list /\
  responseTrailer PI O (snd (rds (length ms + S k) (mkUResponse status h b)
                              (conn_init PI O))) = DPending.
Proof.
  set (u := mkUResponse status h b).
  rewrite Nat.add_succ_r.
  rewrite (reads_same_first _ u (conn_init PI O) _
             (read_first_loop u (conn_init PI O) comp eq_refl Hv)).
  rewrite <- Nat.add_succ_r.
  simpl ur_body. rewrite Hb.
  rewrite (reads_msgs u ms (CErr e :: rest) (S k)
             (set_it (bump (conn_init PI O)) (GLoop O false (map CMsg ms ++ CErr e :: rest)))
             eq_refl).
  rewrite reads_S. unfold read, read_next. simpl.
  rewrite reads_done by reflexivity. split; reflexivity.
Qed.

(** A trailers-only response head (validation reports [foundStatus]) with a
    body that is not empty: the first read() rejects with "received extra
    trailer", whatever the first envelope is, and rejects [responseTrailer]
    with it; a pipeline error instead rejects the read() and leaves
    [responseTrailer] pending. Every later read() returns done. *)
Theorem stream_trailers_only_body status h b comp x rest k
    (Hv : vresp status h = ROk (comp, true))
    (Hb : inbound comp b = x :: rest) :
  fst (rds (S k) (mkUResponse status h b) (conn_init PI O)) =
    RdReject O (match x with CErr e => e | _ => err_extra_trailer end)
      :: repeat (RdDone O) k /\
  responseTrailer PI O (snd (rds (S k) (mkUResponse status h b) (conn_init PI O))) =
    match x with CErr _ => DPending | _ => DRejected err_extra_trailer end.
Proof.
  set (u := mkUResponse status h b).
  rewrite (reads_same_first _ u (conn_init PI O) _
             (read_first_found u (conn_init PI O) comp eq_refl Hv)).
  simpl ur_body. rewrite Hb.
  rewrite reads_S. unfold read, read_next. simpl.
  destruct x; rewrite reads_done by reflexivity; split; reflexivity.
Qed.

End StreamCall.

End StreamProofs.

Module JobProofs.
Import Stream Jobs.

Section Jobs.

Variable decode_details : string -> list AnyMsg.
Variable useBinaryFormat : bool.
Variable acceptCompression : list Compression.
Variable PI O Body : Type.
Variable inbound : option Compression -> Body -> list (Chunk O).

Local Abbreviation step :=
  (jstep decode_details useBinaryFormat acceptCompression PI O Body inbound).
Local Abbreviation trace :=
  (run_trace decode_details useBinaryFormat acceptCompression PI O Body inbound).
Local Abbreviation init := (js_init PI O Body).

(** The shape of the job state: before the response head arrives, between
    its arrival and the [responseHeader] job, and after that job. *)
Definition Inv (s : JState PI O Body) : Prop :=
  (up s = DPending /\ rh s = DPending /\
   (exists rs, reacts s = RxHeader :: rs /\ Forall (eq RxRead) rs) /\
   queue s = [] /\ outputIt PI O (conn s) = None /\ completed s = [])
  \/
  (up s <> DPending /\ rh s = DPending /\ reacts s = [] /\
   (exists q, queue s = JHeader (up s) :: q /\ Forall (eq (JRead (up s))) q) /\
   outputIt PI O (conn s) = None /\ completed s = [])
  \/
  (up s <> DPending /\ rh s = header_of (up s) /\ reacts s = [] /\
   Forall (eq (JRead (up s))) (queue s)).

Lemma Inv_init : Inv init.
Proof.
  left. repeat split; try reflexivity. exists []. split; [reflexivity | constructor].
Qed.

Lemma Forall_snoc {A} (P : A -> Prop) l x : Forall P l -> P x -> Forall P (l ++ [x]).
Proof. intros. apply Forall_app; auto. Qed.

Lemma Inv_step s l s' : Inv s -> step s l = Some s' -> Inv s'.
Proof.
  intros HI Hs.
  destruct HI as [(Hup & Hrh & (rs & Hre & Hrs) & Hq & Hit & Hc)
                 | [(Hup & Hrh & Hre & (q & Hq & Hqf) & Hit & Hc)
                   | (Hup & Hrh & Hre & Hqf)]];
    destruct l as [| p | | m |]; unfold jstep in Hs.
  (* before the response *)
  - rewrite Hit, Hup in Hs. injection Hs as <-.
    left; simpl. repeat split; auto.
    exists (rs ++ [RxRead])%list. rewrite Hre. split; [reflexivity|].
    apply Forall_snoc; auto.
  - rewrite Hup in Hs. destruct p as [|r|e]; [discriminate| |];
      injection Hs as <-; unfold Inv; right; left; cbn [up rh reacts queue conn completed with_conn];
      (split; [discriminate|]); (split; [exact Hrh|]); (split; [reflexivity|]);
      (split; [|split; [exact Hit|exact Hc]]);
      rewrite Hq, Hre; eexists; (split; [reflexivity|]);
      apply Forall_map; refine (Forall_impl _ _ Hrs); intros x <-; reflexivity.
  - rewrite Hq in Hs. discriminate.
  - injection Hs as <-. unfold Inv; left; cbn [up rh reacts queue conn completed with_conn].
    split; [exact Hup|]. split; [exact Hrh|]. split; [exists rs; auto|].
    split; [exact Hq|]. split; [exact Hit|exact Hc].
  - injection Hs as <-. unfold Inv; left; cbn [up rh reacts queue conn completed with_conn].
    split; [exact Hup|]. split; [exact Hrh|]. split; [exists rs; auto|].
    split; [exact Hq|]. split; [exact Hit|exact Hc].
  (* response arrived, responseHeader job pending *)
  - rewrite Hit in Hs. unfold Inv; right; left.
    destruct (up s) as [|r|e] eqn:E; [contradiction| |]; injection Hs as <-;
      cbn [up rh reacts queue conn completed with_conn]; rewrite ?E;
      (split; [discriminate|]); (split; [exact Hrh|]); (split; [exact Hre|]);
      (split; [|split; [exact Hit|exact Hc]]);
      rewrite Hq; eexists; (split; [reflexivity|]); apply Forall_snoc; auto.
  - destruct (up s); [contradiction| |]; destruct p; discriminate.
  - rewrite Hq in Hs. simpl in Hs. injection Hs as <-.
    unfold Inv; right; right; cbn [up rh reacts queue conn completed with_conn].
    split; [exact Hup|]. split; [reflexivity|]. split; [exact Hre|]. exact Hqf.
  - injection Hs as <-. unfold Inv; right; left; cbn [up rh reacts queue conn completed with_conn].
    split; [exact Hup|]. split; [exact Hrh|]. split; [exact Hre|].
    split; [exists q; auto|]. split; [exact Hit|exact Hc].
  - injection Hs as <-. unfold Inv; right; left; cbn [up rh reacts queue conn completed with_conn].
    split; [exact Hup|]. split; [exact Hrh|]. split; [exact Hre|].
    split; [exists q; auto|]. split; [exact Hit|exact Hc].
  (* after the responseHeader job *)
  - unfold Inv; right; right.
    destruct (outputIt PI O (conn s)).
    + destruct (read_next _ _ _ _ _) as [r c'] in Hs. injection Hs as <-.
      cbn [up rh reacts queue conn completed with_conn].
      split; [exact Hup|]. split; [exact Hrh|]. split; [exact Hre|]. exact Hqf.
    + destruct (up s) as [|r|e] eqn:E; [contradiction| |]; injection Hs as <-;
        cbn [up rh reacts queue conn completed with_conn]; rewrite ?E;
        (split; [discriminate|]); (split; [exact Hrh|]);
        (split; [exact Hre|]); apply Forall_snoc; auto.
  - destruct (up s); [contradiction| |]; destruct p; discriminate.
  - destruct (queue s) as [|j q] eqn:Eq; [discriminate|].
    inversion Hqf as [|? ? Hj Hq']; subst j.
    unfold run_job in Hs. unfold Inv; right; right.
    destruct (up s) as [|r|e] eqn:E; [contradiction| |].
    + destruct (read_first _ _ _ _ _ _ _ _ _) as [res c'] in Hs. injection Hs as <-.
      cbn [up rh reacts queue conn completed with_conn].
      split; [discriminate|]. split; [exact Hrh|].
      split; [exact Hre|]. exact Hq'.
    + injection Hs as <-.
      cbn [up rh reacts queue conn completed with_conn].
      split; [discriminate|]. split; [exact Hrh|].
      split; [exact Hre|]. exact Hq'.
  - injection Hs as <-. unfold Inv; right; right; cbn [up rh reacts queue conn completed with_conn].
    split; [exact Hup|]. split; [exact Hrh|]. split; [exact Hre|]. exact Hqf.
  - injection Hs as <-. unfold Inv; right; right; cbn [up rh reacts queue conn completed with_conn].
    split; [exact Hup|]. split; [exact Hrh|]. split; [exact Hre|]. exact Hqf.
Qed.

Lemma Inv_trace tr s s' : Inv s -> trace s tr = Some s' -> Inv s'.
Proof.
  revert s; induction tr as [|l tr IH]; intros s HI Ht; simpl in Ht.
  - injection Ht as <-. exact HI.
  - destruct (step s l) as [s1|] eqn:E; [|discriminate].
    exact (IH s1 (Inv_step s l s1 HI E) Ht).
Qed.


(** C6: once a read() has completed, [responseHeader] has settled from the
    HTTP response head: fulfilled with its headers, or rejected with the
    client's error. *)
Theorem response_header_before_read tr s
    (Ht : trace init tr = Some s) (Hc : completed s <> []) :
  up s <> DPending /\ rh s = header_of (up s).
Proof.
  destruct (Inv_trace tr init s Inv_init Ht)
    as [(_ & _ & _ & _ & _ & Hc') | [(_ & _ & _ & _ & _ & Hc') | (Hup & Hrh & _)]].
  - contradiction.
  - contradiction.
  - split; assumption.
Qed.

(** Traces that never call read(). *)
Definition NoRead (s : JState PI O Body) : Prop :=
  validations PI O (conn s) = 0 /\ ~ In RxRead (reacts s) /\
  Forall (fun j => exists p, j = JHeader p) (queue s).

Lemma NoRead_step s l s' :
  NoRead s -> l <> LCallRead -> step s l = Some s' -> NoRead s'.
Proof.
  intros (Hv & Hr & Hq) Hl Hs.
  destruct l as [| p | | m |]; [contradiction| | | |]; unfold jstep in Hs.
  - destruct (up s), p; try discriminate; injection Hs as <-;
      (split; [exact Hv|]); (split; [intros []|]);
      cbn [queue]; apply Forall_app; (split; [exact Hq|]);
      apply Forall_forall; intros j Hj; apply in_map_iff in Hj;
      destruct Hj as ([|] & <- & Hx); first [eexists; reflexivity | contradiction].
  - destruct (queue s) as [|j q] eqn:Eq; [discriminate|].
    inversion Hq as [|? ? (p & ->) Hq']; subst.
    injection Hs as <-. split; [exact Hv|]. split; [exact Hr|]. exact Hq'.
  - injection Hs as <-. split; [exact Hv|]. split; [exact Hr|]. exact Hq.
  - injection Hs as <-. split; [exact Hv|]. split; [exact Hr|]. exact Hq.
Qed.

Lemma NoRead_trace tr s s' :
  NoRead s -> ~ In LCallRead tr -> trace s tr = Some s' -> NoRead s'.
Proof.
  revert s; induction tr as [|l tr IH]; intros s HN Hin Ht; simpl in Ht.
  - injection Ht as <-. exact HN.
  - destruct (step s l) as [s1|] eqn:E; [|discriminate].
    apply (IH s1); [| intros H; apply Hin; right; exact H | exact Ht].
    apply (NoRead_step s l s1 HN); [|exact E].
    intros ->. apply Hin. left. reflexivity.
Qed.

(** C10 (as amended): response validation happens only inside read(): a
    connection on which read() is never called never validates;
    [responseHeader] settles from the raw response head whatever validation
    says; a read() whose validation fails leaves [outputIt] undefined, so the
    next read() validates again; once [outputIt] is set, read() does not
    validate. *)
Theorem stream_validation_in_read :
  (forall tr s, trace init tr = Some s -> ~ In LCallRead tr ->
     validations PI O (conn s) = 0) /\
  (forall tr s, trace init tr = Some s -> rh s <> DPending ->
     rh s = header_of (up s)) /\
  (forall u c e, outputIt PI O c = None ->
     validate_response decode_details useBinaryFormat acceptCompression
       (ur_status u) (ur_header u) = RErr e ->
     read decode_details useBinaryFormat acceptCompression PI O Body inbound u c =
       (RdReject O e, StreamProofs.bump PI O c) /\
     outputIt PI O (StreamProofs.bump PI O c) = None /\
     validations PI O (StreamProofs.bump PI O c) = S (validations PI O c)) /\
  (forall u c g, outputIt PI O c = Some g ->
     validations PI O
       (snd (read decode_details useBinaryFormat acceptCompression PI O Body inbound u c))
     = validations PI O c).
Proof.
  split; [|split; [|split]].
  - intros tr s Ht Hin.
    assert (H0 : NoRead init).
    { split; [reflexivity|]. split; [intros [H|[]]; discriminate|].
      constructor. }
    exact (proj1 (NoRead_trace tr init s H0 Hin Ht)).
  - intros tr s Ht Hrh.
    destruct (Inv_trace tr init s Inv_init Ht)
      as [(_ & Hrh' & _) | [(_ & Hrh' & _) | (_ & Hrh' & _)]];
      [contradiction | contradiction | exact Hrh'].
  - intros u c e Hc Hv. unfold read. rewrite Hc. unfold read_first. rewrite Hv.
    split; [reflexivity|]. split; [exact Hc | reflexivity].
  - intros u c g Hc. unfold read, read_next. rewrite Hc.
    destruct (gen_next _ _ _ _) as [[st g'] rt]. reflexivity.
Qed.

Lemma trace_app s tr1 tr2 :
  trace s (tr1 ++ tr2)%list =
  match trace s tr1 with Some s' => trace s' tr2 | None => None end.
Proof.
  revert s; induction tr1 as [|l tr1 IH]; intros s; [reflexivity|].
  simpl. destruct (step s l); [apply IH | reflexivity].
Qed.

Lemma trace_cons s l tr :
  trace s (l :: tr) = match step s l with Some s' => trace s' tr | None => None end.
Proof. reflexivity. Qed.

(** Which labels call read(), which reactions and jobs are read()
    continuations. *)
Definition is_read_call (l : Label PI Body) : bool :=
  match l with LCallRead => true | _ => false end.

Definition is_rx_read (x : Reaction) : bool :=
  match x with RxRead => true | RxHeader => false end.

Definition is_jread (j : Job Body) : bool :=
  match j with JRead _ => true | JHeader _ => false end.

(** The job state of a call whose HTTP request failed with [e], or is still
    pending, after [n] read() calls: nothing validated or read from a body,
    every settled read() rejected with [e], every queued job carries the
    rejection, [responseHeader] pending or rejected with [e] (its reaction
    still registered or queued while pending), and each of the [n] calls
    settled, registered or queued. *)
Definition Failed (e : ConnectError) (n : nat) (s : JState PI O Body) : Prop :=
  (up s = DPending \/ (up s = DRejected e /\ reacts s = [])) /\
  outputIt PI O (conn s) = None /\
  validations PI O (conn s) = 0 /\
  responseTrailer PI O (conn s) = DPending /\
  Forall (eq (RdReject O e)) (completed s) /\
  Forall (fun j => j = JHeader (DRejected e) \/ j = JRead (DRejected e)) (queue s) /\
  (rh s = DRejected e \/ In RxHeader (reacts s) \/ In (JHeader (DRejected e)) (queue s)) /\
  (rh s = DPending \/ rh s = DRejected e) /\
  length (completed s) + length (filter is_rx_read (reacts s)) +
    length (filter is_jread (queue s)) = n.

Lemma jread_map p (rs : list Reaction) :
  length (filter is_jread (map (job_of Body p) rs)) = length (filter is_rx_read rs).
Proof. induction rs as [|[] rs IH]; simpl; auto. Qed.

Lemma Failed_init e : Failed e 0 init.
Proof.
  split; [left; reflexivity|]. do 3 (split; [reflexivity|]).
  split; [constructor|]. split; [constructor|].
  split; [right; left; left; reflexivity|]. split; [left; reflexivity|].
  reflexivity.
Qed.

Lemma Failed_step e n s l s' :
  Failed e n s -> (forall p, l = LSettle p -> p = DRejected e) ->
  step s l = Some s' -> Failed e (n + if is_read_call l then 1 else 0) s'.
Proof.
  intros (Hup & Hit & Hv & Hrt & Hc & Hq & Hh & Hrh & Hn) He Hs.
  destruct l as [| p | | m |]; unfold jstep in Hs; cbn [is_read_call].
  - rewrite Hit in Hs.
    destruct Hup as [Hup | (Hup & Hre)]; rewrite Hup in Hs; injection Hs as <-;
      unfold Failed; cbn [up rh reacts queue conn completed].
    + refine (conj (or_introl eq_refl) (conj Hit (conj Hv (conj Hrt
               (conj Hc (conj Hq (conj _ (conj Hrh _)))))))).
      * destruct Hh as [H|[H|H]]; [left; exact H | |right; right; exact H].
        right; left. apply in_or_app. left. exact H.
      * rewrite filter_app, length_app. simpl. lia.
    + refine (conj (or_intror (conj eq_refl Hre)) (conj Hit (conj Hv (conj Hrt
               (conj Hc (conj _ (conj _ (conj Hrh _)))))))).
      * apply Forall_snoc; [exact Hq | right; reflexivity].
      * destruct Hh as [H|[H|H]]; [left; exact H | right; left; exact H |].
        right; right. apply in_or_app. left. exact H.
      * rewrite filter_app, length_app. simpl. lia.
  - rewrite (He p eq_refl) in Hs.
    destruct Hup as [Hup | (Hup & _)]; rewrite Hup in Hs; [|discriminate].
    injection Hs as <-. rewrite Nat.add_0_r.
    unfold Failed; cbn [up rh reacts queue conn completed].
    refine (conj (or_intror (conj eq_refl eq_refl)) (conj Hit (conj Hv (conj Hrt
             (conj Hc (conj _ (conj _ (conj Hrh _)))))))).
    + apply Forall_app. split; [exact Hq|].
      apply Forall_forall. intros j Hj. apply in_map_iff in Hj.
      destruct Hj as ([|] & <- & _); [left | right]; reflexivity.
    + destruct Hh as [H|[H|H]]; [left; exact H | |].
      * right; right. apply in_or_app. right. apply in_map_iff.
        exists RxHeader. split; [reflexivity | exact H].
      * right; right. apply in_or_app. left. exact H.
    + rewrite filter_app, length_app, jread_map. simpl. lia.
  - destruct (queue s) as [|j q] eqn:Eq; [discriminate|].
    rewrite Nat.add_0_r.
    inversion Hq as [|? ? Hj Hq']; subst l x.
    destruct Hj as [-> | ->]; cbn [run_job] in Hs; injection Hs as <-;
      unfold Failed; cbn [up rh reacts queue conn completed header_of].
    + refine (conj Hup (conj Hit (conj Hv (conj Hrt (conj Hc (conj Hq'
               (conj (or_introl eq_refl) (conj (or_intror eq_refl) _)))))))).
      exact Hn.
    + refine (conj Hup (conj Hit (conj Hv (conj Hrt (conj _ (conj Hq'
               (conj _ (conj Hrh _)))))))).
      * apply Forall_snoc; [exact Hc | reflexivity].
      * destruct Hh as [H|[H|[H|H]]];
          [left; exact H | right; left; exact H | discriminate | right; right; exact H].
      * rewrite length_app. simpl in Hn |- *. lia.
  - injection Hs as <-. rewrite Nat.add_0_r.
    exact (conj Hup (conj Hit (conj Hv (conj Hrt (conj Hc (conj Hq (conj Hh (conj Hrh Hn)))))))).
  - injection Hs as <-. rewrite Nat.add_0_r.
    exact (conj Hup (conj Hit (conj Hv (conj Hrt (conj Hc (conj Hq (conj Hh (conj Hrh Hn)))))))).
Qed.

Lemma Failed_trace e n s tr s' :
  Failed e n s -> (forall p, In (LSettle p) tr -> p = DRejected e) ->
  trace s tr = Some s' -> Failed e (n + length (filter is_read_call tr)) s'.
Proof.
  revert n s; induction tr as [|l tr IH]; intros n s HF He Ht; simpl in Ht.
  - injection Ht as <-. rewrite Nat.add_0_r. exact HF.
  - destruct (step s l) as [s1|] eqn:E; [|discriminate].
    pose proof (Failed_step e n s l s1 HF
                  (fun p Hp => He p (or_introl Hp)) E) as HF1.
    pose proof (IH _ s1 HF1 (fun p Hp => He p (or_intror Hp)) Ht) as HF'.
    cbn [filter]. destruct (is_read_call l); cbn [length] in *;
      [replace (n + S (length (filter is_read_call tr)))
         with (n + 1 + length (filter is_read_call tr)) by lia |
       rewrite Nat.add_0_r in HF']; exact HF'.
Qed.

(** Once the request has failed, running the queued jobs always succeeds
    and empties the queue. *)
Lemma Failed_drain e n s :
  Failed e n s -> up s = DRejected e ->
  exists s', trace s (repeat LRun (length (queue s))) = Some s' /\
             Failed e n s' /\ up s' = DRejected e /\ queue s' = [].
Proof.
  remember (length (queue s)) as k eqn:Ek. revert n s Ek.
  induction k as [|k IH]; intros n s Ek HF Hup.
  - exists s. split; [reflexivity|]. split; [exact HF|]. split; [exact Hup|].
    destruct (queue s); [reflexivity | discriminate].
  - pose proof HF as (_ & _ & _ & _ & _ & Hq & _).
    destruct (queue s) as [|j q] eqn:Eq; [discriminate|].
    assert (Hs1 : exists s1, step s LRun = Some s1 /\ up s1 = up s /\ queue s1 = q).
    { unfold jstep. rewrite Eq. inversion Hq as [|? ? [-> | ->] _]; subst;
        eexists; (split; [reflexivity|]); split; reflexivity. }
    destruct Hs1 as (s1 & E1 & Hup1 & Hq1).
    pose proof (Failed_step e n s LRun s1 HF
                  (fun p Hp => ltac:(discriminate Hp)) E1) as HF1.
    rewrite Nat.add_0_r in HF1.
    destruct (IH n s1 ltac:(rewrite Hq1; simpl in Ek; lia) HF1 ltac:(rewrite Hup1; exact Hup))
      as (s' & Et & HF' & Hup' & Hq').
    exists s'. split; [|split; [exact HF' | split; [exact Hup' | exact Hq']]].
    change (repeat LRun (S k)) with (LRun :: repeat (@LRun PI Body) k).
    rewrite trace_cons, E1. exact Et.
Qed.

Lemma Forall_eq_repeat {A} (x : A) l : Forall (eq x) l -> l = repeat x (length l).
Proof. induction 1 as [|y l <- _ IH]; simpl; [reflexivity | rewrite <- IH; reflexivity]. Qed.

(** When the HTTP request fails with [e], whatever the order of the read()
    calls, the failure and the microtasks: every read() that has settled
    rejected with [e], no response validation has run, [responseTrailer] is
    not settled and [responseHeader] is pending or rejected with [e]; and
    once the queued microtasks have run (which always succeeds),
    [responseHeader] is rejected with [e] and every read() called so far,
    before or after the failure, has rejected with [e]. *)
Theorem request_failure e tr s
    (Ht : run_trace decode_details useBinaryFormat acceptCompression PI O Body inbound
            (js_init PI O Body) tr = Some s)
    (He : forall p, In (LSettle p) tr -> p = DRejected e) :
  Forall (eq (RdReject O e)) (completed s) /\
  validations PI O (conn s) = 0 /\
  responseTrailer PI O (conn s) = DPending /\
  (rh s = DPending \/ rh s = DRejected e) /\
  (up s = DRejected e ->
   exists s',
     run_trace decode_details useBinaryFormat acceptCompression PI O Body inbound
       s (repeat LRun (length (queue s))) = Some s' /\
     rh s' = DRejected e /\
     completed s' = repeat (RdReject O e) (length (filter is_read_call tr))).
Proof.
  pose proof (Failed_trace e 0 init tr s (Failed_init e) He Ht) as HF.
  simpl in HF.
  pose proof HF as (_ & _ & Hv & Hrt & Hc & _ & _ & Hrh & _).
  split; [exact Hc|]. split; [exact Hv|]. split; [exact Hrt|]. split; [exact Hrh|].
  intros Hup.
  destruct (Failed_drain e _ s HF Hup) as (s' & Et & HF' & Hup' & Hq').
  destruct HF' as ([Hu' | (_ & Hre')] & _ & _ & _ & Hc' & _ & Hh' & _ & Hn').
  { rewrite Hup' in Hu'. discriminate. }
  exists s'. split; [exact Et|]. rewrite Hre', Hq' in *. simpl in Hn'.
  split.
  - destruct Hh' as [H | [[] | []]]. exact H.
  - rewrite (Forall_eq_repeat _ _ Hc'). f_equal. lia.
Qed.

End Jobs.

End JobProofs.

Module PipelineProofs.
Import Pipeline.

Section Calls.

Variable I PI Env Bytes O : Type.
Variable newI : PI -> I.
Variable transformSerializeEnvelope : list I -> list Env.
Variable transformCompressEnvelope : list Env -> list Env.
Variable transformJoinEnvelopes : list Env -> list Bytes.
Variable transformSplitEnvelope : list Bytes -> list Env.
Variable transformDecompressEnvelope : option Compression -> list Env -> list Env.
Variable transformParseEnvelope : list Env -> list (Chunk O).

Local Abbreviation norm := (normalize I PI newI).
Local Abbreviation ureq := (unary_request_body I PI Env Bytes newI transformSerializeEnvelope
                          transformCompressEnvelope transformJoinEnvelopes).
Local Abbreviation sreq := (stream_request_body I PI Env Bytes newI transformSerializeEnvelope
                          transformCompressEnvelope transformJoinEnvelopes).

(** C7: the request body is [join (compress (serialize (normalize ..)))],
    for the single message of a unary call and for the messages sent on a
    stream; the response items are [parse (decompress (split body))] in both
    calls. *)
Theorem call_pipelines :
  (forall message, ureq message =
     transformJoinEnvelopes (transformCompressEnvelope
       (transformSerializeEnvelope [norm message]))) /\
  (forall sent, sreq sent =
     transformJoinEnvelopes (transformCompressEnvelope
       (transformSerializeEnvelope (map norm sent)))) /\
  (forall compression body,
     unary_response_items Env Bytes O transformSplitEnvelope
       transformDecompressEnvelope transformParseEnvelope compression body =
     transformParseEnvelope (transformDecompressEnvelope compression
       (transformSplitEnvelope body))) /\
  (forall compression body,
     stream_response_items Env Bytes O transformSplitEnvelope
       transformDecompressEnvelope transformParseEnvelope compression body =
     transformParseEnvelope (transformDecompressEnvelope compression
       (transformSplitEnvelope body))).
Proof.
  split; [|split; [|split]]; intros; reflexivity.
Qed.

(** C8: a typed instance is used unchanged, a partial value goes through
    the input constructor; the unary request serializes the normalized
    message and the stream normalizes every sent message the same way. *)
Theorem normalize_input :
  (forall m, norm (Typed I PI m) = m) /\
  (forall p, norm (Partial I PI p) = newI p) /\
  (forall message, ureq message =
     transformJoinEnvelopes (transformCompressEnvelope
       (transformSerializeEnvelope [norm message]))) /\
  (forall sent, transformNormalizeMessage I PI newI sent = map norm sent) /\
  (forall sent, sreq sent =
     transformJoinEnvelopes (transformCompressEnvelope
       (transformSerializeEnvelope (map norm sent)))).
Proof.
  split; [|split; [|split; [|split]]]; intros; reflexivity.
Qed.

End Calls.

End PipelineProofs.

Module StatusProofs.

(** C9: a constructed [ConnectError] carries one of the seventeen status
    codes and never [Ok]; without a code it is [Unknown], without details
    its details list is empty. *)
Theorem connect_error_code (message : string) (code : option ErrorCode)
    (details : option (list AnyMsg)) :
  In (ce_code (new_ConnectError message code details)) all_codes /\
  ce_code (new_ConnectError message code details) <> Ok /\
  ce_code (new_ConnectError message None details) = Unknown /\
  ce_details (new_ConnectError message code None) = [].
Proof.
  split; [|split; [|split]].
  - destruct (ce_code (new_ConnectError message code details));
      simpl; tauto.
  - destruct code as [[c Hc]|]; simpl; [exact Hc | discriminate].
  - reflexivity.
  - reflexivity.
Qed.

(** The message of a [ConnectError] determines its code and the message it
    was constructed with: the rendered "[Code] message" is unambiguous. *)
Theorem connect_error_message_unambiguous (m1 m2 : string) (c1 c2 : option ErrorCode)
    (d1 d2 : option (list AnyMsg))
    (H : ce_message (new_ConnectError m1 c1 d1) = ce_message (new_ConnectError m2 c2 d2)) :
  ce_code (new_ConnectError m1 c1 d1) = ce_code (new_ConnectError m2 c2 d2) /\ m1 = m2.
Proof.
  unfold new_ConnectError in *. cbn [ce_message ce_code] in *.
  generalize dependent (match c1 with Some c => proj1_sig c | None => Unknown end).
  generalize dependent (match c2 with Some c => proj1_sig c | None => Unknown end).
  intros k2 k1 H.
  destruct k1, k2; simpl in H; try discriminate;
    (split; [reflexivity | injection H as H; exact H]).
Qed.

End StatusProofs.

(* ------------------------------------------------------------------ *)
(** * The theorems at concrete calls, and counterexamples *)

Module Concrete.
Import Samples Stream Jobs.

Lemma unary_envelope_counts_witness :
  unary (resp 200 proto_header [CEnd ok_trailer; CMsg 7]) =
  ROk {| Unary.u_header := proto_header; Unary.u_message := 7;
         Unary.u_trailer := ok_trailer |}.
Proof.
  destruct (UnaryProofs.unary_envelope_counts no_details true [] nat (list (Chunk nat))
              parsed 200 proto_header [CEnd ok_trailer; CMsg 7] None eq_refl)
    as (_ & H & _).
  apply H; [repeat constructor | reflexivity | reflexivity | reflexivity].
Defined.

Lemma unary_trailers_only_ok_witness :
  unary (resp 200 status_header []) = RErr err_missing_trailer.
Proof.
  apply (UnaryProofs.unary_trailers_only_ok no_details true [] nat (list (Chunk nat))
           parsed 200 status_header [] None);
    reflexivity.
Defined.

Lemma stream_trailer_error_witness :
  fst (stream_reads 3 (resp 200 proto_header [CMsg 5; CEnd rate_limited_trailer])) =
  [RdValue nat 5; RdReject nat rate_limited; RdDone nat] /\
  responseTrailer unit nat
    (snd (stream_reads 3 (resp 200 proto_header [CMsg 5; CEnd rate_limited_trailer])))
  = DPending.
Proof.
  refine (StreamProofs.stream_trailer_error no_details true [] unit nat (list (Chunk nat))
            parsed 200 proto_header [CMsg 5; CEnd rate_limited_trailer] None [5]
            rate_limited_trailer [] rate_limited 1 _ _ _); reflexivity.
Defined.

Lemma stream_trailers_only_witness :
  fst (stream_reads 2 (resp 200 status_header [])) =
  [RdDone nat; RdDone nat] /\
  responseTrailer unit nat
    (snd (stream_reads 2 (resp 200 status_header [])))
  = DPending.
Proof.
  refine (StreamProofs.stream_trailers_only no_details true [] unit nat (list (Chunk nat))
            parsed 200 status_header [] None 1 _ _);
    reflexivity.
Defined.

Lemma stream_after_trailer_witness :
  fst (stream_reads 2 (resp 200 proto_header [CMsg 5; CEnd ok_trailer; CMsg 6])) =
  [RdValue nat 5; RdReject nat err_extra_message] /\
  responseTrailer unit nat
    (snd (stream_reads 2 (resp 200 proto_header [CMsg 5; CEnd ok_trailer; CMsg 6])))
  = DResolved ok_trailer.
Proof.
  destruct (StreamProofs.stream_after_trailer no_details true [] unit nat (list (Chunk nat))
              parsed 200 proto_header [CMsg 5; CEnd ok_trailer; CMsg 6] None eq_refl)
    as [H _].
  exact (H [5] ok_trailer (CMsg 6) [] eq_refl eq_refl).
Defined.

Lemma response_header_before_read_witness :
  stream_trace read_trace = Some (state_after read_trace) /\
  completed (state_after read_trace) = [RdValue nat 5] /\
  rh (state_after read_trace) = DResolved proto_header.
Proof.
  split; [reflexivity|]. split; [reflexivity|].
  destruct (JobProofs.response_header_before_read no_details true [] unit nat
              (list (Chunk nat)) parsed read_trace (state_after read_trace)
              eq_refl ltac:(vm_compute; discriminate)) as [_ H].
  rewrite H. reflexivity.
Defined.

Lemma stream_validation_in_read_witness :
  read no_details true [] unit nat (list (Chunk nat)) parsed
    (resp 404 proto_header []) (conn_init unit nat) =
  (RdReject nat not_found, StreamProofs.bump unit nat (conn_init unit nat)).
Proof.
  destruct (JobProofs.stream_validation_in_read no_details true [] unit nat
              (list (Chunk nat)) parsed) as (_ & _ & H & _).
  exact (proj1 (H (resp 404 proto_header []) (conn_init unit nat) not_found
                  eq_refl eq_refl)).
Defined.

(** C5 as stated fails: a second trailer envelope fails the read() but
    [responseTrailer] stays resolved with the first trailer. *)
Lemma stream_after_trailer_counterexample :
  let '(rs, c) := stream_reads 1 (resp 200 proto_header [CEnd ok_trailer; CEnd ok_trailer]) in
  rs = [RdReject nat err_extra_trailer] /\
  responseTrailer unit nat c = DResolved ok_trailer.
Proof. vm_compute. split; reflexivity. Qed.

(** C10 as stated fails: on an HTTP 404 response the first read() fails
    validation, and the second read() validates again. *)
Lemma stream_validation_counterexample :
  match stream_trace
          [LCallRead; LSettle (DResolved (resp 404 proto_header [])); LRun; LRun;
           LCallRead; LRun] with
  | Some s => validations unit nat (conn s) = 2 /\
              completed s = [RdReject nat not_found; RdReject nat not_found]
  | None => False
  end.
Proof. vm_compute. split; reflexivity. Qed.

End Concrete.

(** * Further properties at concrete calls *)

Module ConcreteFacts.
Import Samples Stream.

Lemma unary_success_shape_witness :
  exists comp foundStatus,
    validate_response no_details true [] 200 proto_header = ROk (comp, foundStatus) /\
    no_err (parsed comp [CMsg 7; CEnd ok_trailer]) /\
    msgs_of (parsed comp [CMsg 7; CEnd ok_trailer]) = [7] /\
    trailers_of (parsed comp [CMsg 7; CEnd ok_trailer]) = [ok_trailer] /\
    validate_trailer no_details ok_trailer = None /\
    proto_header = proto_header.
Proof.
  exact (UnaryProofs.unary_success_shape no_details true [] nat (list (Chunk nat)) parsed
           200 proto_header [CMsg 7; CEnd ok_trailer]
           {| Unary.u_header := proto_header; Unary.u_message := 7;
              Unary.u_trailer := ok_trailer |} eq_refl).
Defined.

Lemma unary_trailer_error_first_witness :
  unary (resp 200 proto_header [CEnd rate_limited_trailer]) = RErr rate_limited.
Proof.
  apply (UnaryProofs.unary_trailer_error_first no_details true [] nat (list (Chunk nat))
           parsed 200 proto_header [CEnd rate_limited_trailer] None false
           rate_limited_trailer rate_limited);
    [reflexivity | repeat constructor | simpl; lia | reflexivity | reflexivity].
Defined.

Lemma unary_first_violation_witness :
  unary (resp 200 proto_header [CMsg 1; CMsg 2; CErr not_found]) = RErr err_extra_output.
Proof.
  exact (proj1 (UnaryProofs.unary_first_violation no_details true [] nat (list (Chunk nat))
                  parsed 200 proto_header [CMsg 1; CMsg 2; CErr not_found] None false
                  eq_refl)
           [CMsg 1; CMsg 2] [CErr not_found] err_extra_output eq_refl eq_refl).
Defined.

Lemma request_failure_witness :
  exists s',
    Jobs.run_trace no_details true [] unit nat (list (Chunk nat)) parsed
      (state_after fail_trace) (repeat Jobs.LRun 3) = Some s' /\
    Jobs.rh s' = DRejected not_found /\
    Jobs.completed s' = repeat (RdReject nat not_found) 3.
Proof.
  refine (proj2 (proj2 (proj2 (proj2
            (JobProofs.request_failure no_details true [] unit nat (list (Chunk nat)) parsed
               not_found fail_trace (state_after fail_trace) eq_refl _)))) eq_refl).
  intros p Hp; simpl in Hp; repeat destruct Hp as [Hp | Hp];
    first [discriminate | injection Hp as <-; reflexivity | contradiction].
Defined.

Lemma stream_end_is_final_witness :
  [RdDone nat] = repeat (RdDone nat) (length [RdDone nat]).
Proof.
  exact (StreamProofs.stream_end_is_final no_details true [] unit nat (list (Chunk nat))
           parsed 3 (resp 200 proto_header [CMsg 5; CErr not_found; CMsg 6]) (None, false)
           [RdValue nat 5] (RdReject nat not_found) [RdDone nat] eq_refl eq_refl
           (fun m H => ltac:(discriminate H))).
Defined.


Lemma stream_happy_path_witness :
  fst (stream_reads 3 (resp 200 proto_header [CMsg 5; CEnd ok_trailer])) =
    [RdValue nat 5; RdDone nat; RdDone nat] /\
  responseTrailer unit nat (snd (stream_reads 3 (resp 200 proto_header [CMsg 5; CEnd ok_trailer])))
    = DResolved ok_trailer.
Proof.
  refine (StreamProofs.stream_happy_path no_details true [] unit nat (list (Chunk nat))
            parsed 200 proto_header [CMsg 5; CEnd ok_trailer] None [5] ok_trailer 1 _ _ _);
    reflexivity.
Defined.

Lemma stream_pipeline_error_witness :
  fst (stream_reads 3 (resp 200 proto_header [CMsg 5; CErr not_found; CMsg 6])) =
    [RdValue nat 5; RdReject nat not_found; RdDone nat] /\
  responseTrailer unit nat
    (snd (stream_reads 3 (resp 200 proto_header [CMsg 5; CErr not_found; CMsg 6])))
    = DPending.
Proof.
  refine (StreamProofs.stream_pipeline_error no_details true [] unit nat (list (Chunk nat))
            parsed 200 proto_header [CMsg 5; CErr not_found; CMsg 6] None [5] not_found
            [CMsg 6] 1 _ _);
    reflexivity.
Defined.

Lemma stream_trailers_only_body_witness :
  fst (stream_reads 2 (resp 200 status_header [CMsg 5])) =
    [RdReject nat err_extra_trailer; RdDone nat] /\
  responseTrailer unit nat (snd (stream_reads 2 (resp 200 status_header [CMsg 5])))
    = DRejected err_extra_trailer.
Proof.
  refine (StreamProofs.stream_trailers_only_body no_details true [] unit nat
            (list (Chunk nat)) parsed 200 status_header [CMsg 5] None (CMsg 5) [] 1 _ _);
    reflexivity.
Defined.

Lemma connect_error_message_unambiguous_witness :
  ce_code (new_ConnectError "x" (Some (to_error_code NotFound)) None) =
    ce_code (new_ConnectError "x" (Some (to_error_code NotFound)) (Some [])) /\
  "x" = "x".
Proof.
  apply (StatusProofs.connect_error_message_unambiguous "x" "x"
           (Some (to_error_code NotFound)) (Some (to_error_code NotFound)) None (Some [])).
  reflexivity.
Defined.

End ConcreteFacts.
